(** * An Elo ranking system: Player, Match and RankingSystem

    A shallow embedding of the C++ sources [Player.cpp], [Match.cpp] and
    [RankingSystem.cpp], and the properties of the rating engine, of the
    per-player statistics and of the CSV persistence.

    Conventions of the embedding:
    - a C++ [int] is a [Z] and [x++] wraps around at 32 bits ([Int.incr]);
    - a C++ [double] is any type [D] with the operations the code uses
      (class [Double]), [std::pow] comes from class [CMath] and the stream
      operators [<<] and [>>] from class [DoubleText].  The code is written
      once, over these classes.  The algebraic properties of the rating
      formula are proved at the instance of the real numbers; the text
      format and the rounded values of the formula are computed at the
      instance of binary64 floating-point numbers;
    - objects live in a heap, a [list Player]; a [Player&] or [Player*] is
      a position in that list, so two references may name one object;
    - text written to [std::cout] is returned next to the new state. *)

From Stdlib Require Import ZArith Reals Lra Lia String Ascii List Floats.
From Stdlib Require Import DecimalString DecimalZ.
From stdpp Require Import base option list strings gmap.

Set Default Proof Using "Type".
Local Open Scope Z_scope.

(* ================================================================== *)
(** * Part I: the model *)
(* ================================================================== *)

(** ** The C++ type [int] *)

Module Int.
Definition INT_MAX : Z := 2147483647.
Definition INT_MIN : Z := -2147483648.

(** Two's complement reduction to 32 bits. *)
Definition wrap (z : Z) : Z := (z + 2 ^ 31) mod 2 ^ 32 - 2 ^ 31.

(** [a + b] on [int]. *)
Definition add (a b : Z) : Z := wrap (a + b).

(** [x++] on an [int] member. *)
Definition incr (x : Z) : Z := wrap (x + 1).

Definition in_range (z : Z) : Prop := INT_MIN <= z <= INT_MAX.
End Int.

(** ** The C++ type [double] *)

(** The built-in operations on [double] that the sources use. *)
Class Double (D : Type) := {
  dlit : Z -> D;              (* the literals 0.0, 1.0, 10.0, 32.0, 400.0, 1200.0 *)
  dhalf : D;                  (* the literal 0.5 *)
  dltb : D -> D -> bool;      (* a < b *)
  dadd : D -> D -> D;
  dsub : D -> D -> D;
  dmul : D -> D -> D;
  ddiv : D -> D -> D
}.

(** [<cmath>]: [pow(base, exponent)]. *)
Class CMath (D : Type) := {
  dpow : D -> D -> D
}.

Declare Scope double_scope.
Delimit Scope double_scope with dbl.
Infix "+" := dadd : double_scope.
Infix "-" := dsub : double_scope.
Infix "*" := dmul : double_scope.
Infix "/" := ddiv : double_scope.
Infix "<?" := dltb : double_scope.

(** The real numbers: [double] without rounding.  [Rpower x y] is
    [exp (y * ln x)], the power function for a positive base; the code only
    raises 10.0 to a power. *)
Definition Rltb (a b : R) : bool := if Rlt_dec a b then true else false.

#[export] Instance R_Double : Double R := {|
  dlit := IZR;
  dhalf := (1 / 2)%R;
  dltb := Rltb;
  dadd := Rplus;
  dsub := Rminus;
  dmul := Rmult;
  ddiv := Rdiv
|}.

#[export] Instance R_CMath : CMath R := {| dpow := Rpower |}.

(** Binary64 numbers, the machine's [double]. *)
Definition float_of_Z (z : Z) : float :=
  SF2Prim (binary_normalize prec emax z 0 false).

#[export] Instance float_Double : Double float := {|
  dlit := float_of_Z;
  dhalf := 0.5%float;
  dltb := PrimFloat.ltb;
  dadd := PrimFloat.add;
  dsub := PrimFloat.sub;
  dmul := PrimFloat.mul;
  ddiv := PrimFloat.div
|}.

Definition nl : string := String "010" EmptyString.

(** References to objects are positions in a heap. *)
Abbreviation ref := nat (only parsing).

(** ** Text streams: [<iostream>], [<sstream>], [<fstream>] *)

Definition is_digit (c : ascii) : bool :=
  ((48 <=? N_of_ascii c) && (N_of_ascii c <=? 57))%N.

(** [isspace] in the "C" locale. *)
Definition is_space (c : ascii) : bool :=
  ((N_of_ascii c =? 32) || ((9 <=? N_of_ascii c) && (N_of_ascii c <=? 13)))%N.

Definition is_sign (c : ascii) : bool := Ascii.eqb c "+" || Ascii.eqb c "-".

Definition is_empty (s : string) : bool :=
  match s with EmptyString => true | _ => false end.

Fixpoint skip_ws (s : string) : string :=
  match s with
  | String c rest => if is_space c then skip_ws rest else s
  | EmptyString => EmptyString
  end.

(** The longest prefix of decimal digits, and what follows it. *)
Fixpoint span_digits (s : string) : string * string :=
  match s with
  | String c rest =>
      if is_digit c
      then let (ds, r) := span_digits rest in (String c ds, r)
      else (EmptyString, s)
  | EmptyString => (EmptyString, EmptyString)
  end.

(** An optional ['+'] or ['-']. *)
Definition read_sign (s : string) : string * string :=
  match s with
  | String c rest => if is_sign c then (String c EmptyString, rest) else (EmptyString, s)
  | EmptyString => (EmptyString, EmptyString)
  end.

Definition is_minus (sign : string) : bool := String.eqb sign "-".

(** The number written by a string of decimal digits. *)
Definition digits_value (ds : string) : Z :=
  match NilEmpty.uint_of_string ds with
  | Some d => Z.of_uint d
  | None => 0
  end.

(** [os << n] for an [int] (or a [size_t]). *)
Definition show_int (n : Z) : string := NilEmpty.string_of_int (Z.to_int n).

(** The characters that [num_get] collects for a floating-point number:
    digits, at most one decimal point before the exponent, at most one
    exponent letter after a digit, with an optional sign right after it.
    Returns them with the rest of the buffer. *)
Fixpoint scan_float_body (found_mantissa found_dec found_sci : bool) (s : string)
  : string * string :=
  match s with
  | EmptyString => (EmptyString, EmptyString)
  | String c rest =>
      if is_digit c then
        let (t, r) := scan_float_body true found_dec found_sci rest in (String c t, r)
      else if Ascii.eqb c "." && negb found_dec && negb found_sci then
        let (t, r) := scan_float_body found_mantissa true found_sci rest in (String c t, r)
      else if (Ascii.eqb c "e" || Ascii.eqb c "E") && negb found_sci && found_mantissa then
        match rest with
        | EmptyString => (String "e" EmptyString, EmptyString)
        | String c' rest' =>
            if is_sign c' then
              let (t, r) := scan_float_body found_mantissa found_dec true rest' in
              (String "e" (String c' t), r)
            else
              let (t, r) := scan_float_body found_mantissa found_dec true rest in
              (String "e" t, r)
        end
      else (EmptyString, s)
  end.

Definition scan_float (s : string) : string * string :=
  let (sign, s) := read_sign s in
  let (t, r) := scan_float_body false false false s in
  (sign +:+ t, r).

(** [operator<<] and the conversion behind [operator>>] for [double]:
    [dshow] is the text written, [dconv] turns the characters collected by
    [scan_float] into a value and tells whether that failed. *)
Class DoubleText (D : Type) := {
  dshow : D -> string;
  dconv : string -> D * bool
}.

(** An input stream: the characters still to read and two state bits. *)
Record istream := mkIstream {
  buffer : string;
  eofbit : bool;
  failbit : bool
}.

Definition istream_of (s : string) : istream := mkIstream s false false.

Definition good (st : istream) : bool := negb (eofbit st) && negb (failbit st).

Definition set_failbit (st : istream) : istream :=
  mkIstream (buffer st) (eofbit st) true.

(** Characters up to the first [delim], and what follows it if it occurs. *)
Fixpoint split_at (delim : ascii) (s : string) : string * option string :=
  match s with
  | EmptyString => (EmptyString, None)
  | String c rest =>
      if Ascii.eqb c delim then (EmptyString, Some rest)
      else let (line, r) := split_at delim rest in (String c line, r)
  end.

(** [std::getline(is, str, delim)]: on a stream that is not good, [str]
    is left as it was. *)
Definition getline (st : istream) (str : string) (delim : ascii) : istream * string :=
  if good st then
    match split_at delim (buffer st) with
    | (line, Some rest) => (mkIstream rest false false, line)
    | (line, None) => (mkIstream EmptyString true (is_empty line), line)
    end
  else (set_failbit st, str).

(** [is.ignore()]: drop one character. *)
Definition ignore (st : istream) : istream :=
  if good st then
    match buffer st with
    | String _ rest => mkIstream rest false false
    | EmptyString => mkIstream EmptyString true false
    end
  else set_failbit st.

(** [is >> n] for [int n].  A variable is [None] while it is not
    initialized; a stream that is not good, or that ends after the white
    space, does not write it. *)
Definition extract_int (st : istream) (n : option Z) : istream * option Z :=
  if good st then
    match skip_ws (buffer st) with
    | EmptyString => (mkIstream EmptyString true true, n)
    | buf =>
        let (sign, buf) := read_sign buf in
        let (ds, rest) := span_digits buf in
        let v := if is_minus sign then - digits_value ds else digits_value ds in
        if is_empty ds then (mkIstream rest (is_empty rest) true, Some 0)
        else if v <? Int.INT_MIN then (mkIstream rest (is_empty rest) true, Some Int.INT_MIN)
        else if Int.INT_MAX <? v then (mkIstream rest (is_empty rest) true, Some Int.INT_MAX)
        else (mkIstream rest (is_empty rest) false, Some v)
    end
  else (set_failbit st, n).

(** [is >> x] for [double x]. *)
Definition extract_double {D} `{DoubleText D} (st : istream) (x : option D)
  : istream * option D :=
  if good st then
    match skip_ws (buffer st) with
    | EmptyString => (mkIstream EmptyString true true, x)
    | buf =>
        let (text, rest) := scan_float buf in
        let (v, failed) := dconv text in
        (mkIstream rest (is_empty rest) failed, Some v)
    end
  else (set_failbit st, x).

(** The successive lines that [while (std::getline(file, line))] sees: the
    text between line feeds, and a last line without line feed if it is
    not empty. *)
Fixpoint file_lines (content : string) : list string :=
  match content with
  | EmptyString => []
  | String c rest =>
      if Ascii.eqb c "010" then EmptyString :: file_lines rest
      else match file_lines rest with
           | [] => [String c EmptyString]
           | line :: lines => String c line :: lines
           end
  end.

(** The files of the machine: the text of those that can be opened for
    reading, and which names can be opened for writing. *)
Record FileSystem := mkFileSystem {
  contents : gmap string string;
  writable : string -> bool
}.

Definition write_file (filename text : string) (fs : FileSystem) : FileSystem :=
  mkFileSystem (<[filename := text]> (contents fs)) (writable fs).

(** ** Binary64 numbers as text *)

Module Binary64.

(** [DBL_MAX] *)
Definition DBL_MAX : float := 0x1.fffffffffffffp+1023%float.

(** The decimal digits of a natural number. *)
Definition digits_of (n : Z) : list ascii :=
  list_ascii_of_string (NilEmpty.string_of_uint (N.to_uint (Z.to_N n))).

(** [10^x <= num / den], for positive [num] and [den]. *)
Definition pow10_le (x num den : Z) : bool :=
  if 0 <=? x then 10 ^ x * den <=? num else den <=? num * 10 ^ (- x).

(** The decimal exponent of [num / den]: the largest [x], counting down
    from the start value, with [10^x <= num / den]. *)
Fixpoint decimal_exponent (fuel : nat) (x num den : Z) : Z :=
  match fuel with
  | O => x
  | S fuel => if pow10_le x num den then x else decimal_exponent fuel (x - 1) num den
  end.

(** [num / den] rounded to the nearest integer, ties to even. *)
Definition round_half_even (num den : Z) : Z :=
  let q := num / den in
  match 2 * (num mod den) ?= den with
  | Lt => q
  | Gt => q + 1
  | Eq => if Z.even q then q else q + 1
  end.

(** [num / den / 10^(x - 5)] rounded: six significant digits. *)
Definition significand6 (x num den : Z) : Z :=
  if 5 <=? x then round_half_even num (den * 10 ^ (x - 5))
  else round_half_even (num * 10 ^ (5 - x)) den.

Fixpoint strip_zeros (ds : list ascii) : list ascii :=
  match ds with
  | [] => []
  | c :: rest =>
      match strip_zeros rest with
      | [] => if Ascii.eqb c "0" then [] else [c]
      | rest' => c :: rest'
      end
  end.

Definition zeros (n : nat) : list ascii := replicate n "0"%char.

Definition dot_fraction (frac : list ascii) : list ascii :=
  match frac with [] => [] | _ => "."%char :: frac end.

(** Style [%e] after removal of the trailing zeros: [d.ddddde+XX]. *)
Definition scientific (ds : list ascii) (x : Z) : list ascii :=
  take 1 ds ++ dot_fraction (drop 1 ds) ++
  "e"%char :: (if x <? 0 then "-"%char else "+"%char) ::
  (if Z.abs x <? 10 then "0"%char :: digits_of (Z.abs x) else digits_of (Z.abs x)).

(** Style [%f] after removal of the trailing zeros. *)
Definition fixed (ds : list ascii) (x : Z) : list ascii :=
  if 0 <=? x then
    let n := S (Z.to_nat x) in
    take n (ds ++ zeros (n - length ds)) ++ dot_fraction (drop n ds)
  else
    "0"%char :: "."%char :: zeros (Z.to_nat (- x - 1)) ++ ds.

(** [printf("%g")] with the default precision 6 for the positive number
    [m * 2^e]. *)
Definition format_g (m : positive) (e : Z) : list ascii :=
  let num := if 0 <=? e then Z.pos m * 2 ^ e else Z.pos m in
  let den := if 0 <=? e then 1 else 2 ^ (- e) in
  let x := decimal_exponent 700 309 num den in
  let n := significand6 x num den in
  let '(n, x) := if n =? 1000000 then (100000, x + 1) else (n, x) in
  let ds := strip_zeros (digits_of n) in
  if (x <? -4) || (6 <=? x) then scientific ds x else fixed ds x.

Definition sign_text (s : bool) : list ascii := if s then ["-"%char] else [].

(** [os << x]: a stream formats a [double] as [%g] with precision 6
    unless told otherwise. *)
Definition show (x : float) : string :=
  string_of_list_ascii
    match Prim2SF x with
    | S754_zero s => sign_text s ++ ["0"%char]
    | S754_infinity s => sign_text s ++ list_ascii_of_string "inf"
    | S754_nan => list_ascii_of_string "nan"
    | S754_finite s m e => sign_text s ++ format_g m e
    end.

(** The binary64 number nearest to [m * 10^e10]. *)
Definition of_decimal (m e10 : Z) : spec_float :=
  if 0 <=? e10 then binary_normalize prec emax (m * 10 ^ e10) 0 false
  else
    match m with
    | Z0 => S754_zero false
    | Zpos p =>
        SFdiv prec emax (S754_finite false p 0)
              (S754_finite false (Z.to_pos (10 ^ (- e10))) 0)
    | Zneg p =>
        SFdiv prec emax (S754_finite true p 0)
              (S754_finite false (Z.to_pos (10 ^ (- e10))) 0)
    end.

(** The exponent part of a numeral: nothing, or [e], a sign and digits. *)
Definition exponent_part (s : string) : option Z :=
  match s with
  | EmptyString => Some 0
  | String c rest =>
      if Ascii.eqb c "e" || Ascii.eqb c "E" then
        let (sign, rest) := read_sign rest in
        let (ds, rest) := span_digits rest in
        if is_empty ds || negb (is_empty rest) then None
        else Some (if is_minus sign then - digits_value ds else digits_value ds)
      else None
  end.

(** [strtod] on the collected characters, then the checks of the stream:
    characters left over give 0.0 and a failure, an overflow gives
    [DBL_MAX] with the sign and a failure. *)
Definition conv (text : string) : float * bool :=
  let (sign, s) := read_sign text in
  let (int_part, s) := span_digits s in
  let (frac_part, s) :=
    match s with
    | String "." rest => span_digits rest
    | _ => (EmptyString, s)
    end in
  if is_empty (int_part +:+ frac_part) then (0%float, true)
  else
    match exponent_part s with
    | None => (0%float, true)
    | Some e =>
        let m := digits_value (int_part +:+ frac_part) in
        let e10 := e - Z.of_nat (String.length frac_part) in
        match of_decimal m e10 with
        | S754_infinity _ => (if is_minus sign then (- DBL_MAX)%float else DBL_MAX, true)
        | v => (if is_minus sign then (- SF2Prim v)%float else SF2Prim v, false)
        end
    end.

End Binary64.

#[export] Instance float_DoubleText : DoubleText float := {|
  dshow := Binary64.show;
  dconv := Binary64.conv
|}.

(** ** The power function of the C library on binary64 *)

Module Libm.

(** Fixed-point numbers: the integer [v] stands for [v / 2^bits]. *)
Definition bits : Z := 256.
Definition one : Z := 2 ^ bits.
Definition fmul (a b : Z) : Z := Z.shiftr (a * b) bits.

(** [z + z^3/3 + z^5/5 + ...]: [n] terms, from the one in [power / k]. *)
Fixpoint atanh_series (n : nat) (k power z2 : Z) : Z :=
  match n with
  | O => 0
  | S n => power / k + atanh_series n (k + 2) (fmul power z2) z2
  end.

(** [ln (num / den) = 2 * atanh ((num - den) / (num + den))], for
    [den <= num <= 2 * den]. *)
Definition ln_ratio (num den : Z) : Z :=
  let z := (num - den) * one / (num + den) in
  2 * atanh_series 128 1 z (fmul z z).

Definition ln2 : Z := Eval vm_compute in ln_ratio 2 1.

(** [ln (m * 2^e)] for a positive [m]. *)
Definition ln (m e : Z) : Z :=
  let n := Z.log2 m in
  (e + n) * ln2 + ln_ratio m (2 ^ n).

(** [1 + r + r^2/2! + ...]: [n] terms, from [term], the one of index
    [i - 1]. *)
Fixpoint exp_series (n : nat) (i term r : Z) : Z :=
  match n with
  | O => 0
  | S n => term + exp_series n (i + 1) (fmul term r / i) r
  end.

(** [exp t] as [mantissa * 2^exponent], from [t = k * ln 2 + r] with
    [r] between [- ln 2 / 2] and [ln 2 / 2]. *)
Definition exp (t : Z) : Z * Z :=
  let k := (2 * t + ln2) / (2 * ln2) in
  let r := t - k * ln2 in
  (exp_series 96 1 one r, k - bits).

(** [(mx * 2^ex) ^ (my * 2^ey)] for a positive [mx]: the binary64 number
    nearest to the power, which is computed with more than 200 bits. *)
Definition pow_pos (mx ex my ey : Z) : spec_float :=
  let t := Z.shiftl (my * ln mx ex) ey in
  if 2 ^ 11 * one <? t then S754_infinity false
  else if t <? - (2 ^ 11 * one) then S754_zero false
  else let (m, e) := exp t in binary_normalize prec emax m e false.

(** Is [m * 2^e] an integer, and an odd one? *)
Definition is_integer (m e : Z) : bool :=
  (0 <=? e) || (m mod 2 ^ (- e) =? 0).

Definition is_odd (m e : Z) : bool :=
  if 0 <? e then false else is_integer m e && Z.odd (Z.shiftr m (- e)).

Definition odd_integer (y : spec_float) : bool :=
  match y with
  | S754_finite _ m e => is_odd (Zpos m) e
  | _ => false
  end.

Definition negative (y : spec_float) : bool :=
  match y with
  | S754_finite s _ _ | S754_infinity s | S754_zero s => s
  | S754_nan => false
  end.

(** [pow(x, y)] of [<cmath>].  The special values are those of Annex F
    of the C standard ([pow(x, 0)] is 1 for every [x]).  For the other
    arguments the standard fixes no accuracy; the model returns the
    binary64 number nearest to the power.  The C library (glibc) returns
    that number, or in rare cases (less than one argument in a thousand),
    when the power lies within a hundredth of the spacing from the middle
    of two neighbours, the other neighbour. *)
Definition pow (x y : float) : float :=
  match Prim2SF x, Prim2SF y with
  | _, S754_zero _ => 1%float
  | sx, sy =>
      if PrimFloat.Leibniz.eqb x 1%float then 1%float
      else
        match sx, sy with
        | S754_nan, _ | _, S754_nan => nan
        | S754_zero s, _ =>
            if negative sy then
              if s && odd_integer sy then neg_infinity else infinity
            else if s && odd_integer sy then neg_zero else zero
        | S754_infinity s, _ =>
            if negative sy then
              if s && odd_integer sy then neg_zero else zero
            else if s && odd_integer sy then neg_infinity else infinity
        | S754_finite _ _ _, S754_infinity s =>
            if PrimFloat.Leibniz.eqb x (-1)%float then 1%float
            else if xorb (abs x <? 1)%float s then zero else infinity
        | S754_finite false mx ex, S754_finite s my ey =>
            SF2Prim (pow_pos (Zpos mx) ex (if s then Zneg my else Zpos my) ey)
        | S754_finite true mx ex, S754_finite s my ey =>
            if is_integer (Zpos my) ey then
              let r :=
                SF2Prim (pow_pos (Zpos mx) ex (if s then Zneg my else Zpos my) ey) in
              if is_odd (Zpos my) ey then (- r)%float else r
            else nan
        | _, S754_zero _ => 1%float
        end
  end.

End Libm.

#[export] Instance float_CMath : CMath float := {| dpow := Libm.pow |}.


(** ** Player.cpp *)

Section Model.
Context {D : Type} `{Double D}.

Record Player := mkPlayer {
  name : string;
  rating : D;
  gamesPlayed : Z;
  wins : Z;
  losses : Z;
  draws : Z
}.

(** Default argument of the constructor: [double rating = 1200.0]. *)
Definition default_rating : D := dlit 1200.

(** [Player::Player(std::string name, double rating)]: the initializer
    list, then the floor on a negative rating. *)
Definition Player_new (name : string) (rating : D) : Player :=
  let this := mkPlayer name rating 0 0 0 0 in
  if (rating <? dlit 0)%dbl
  then mkPlayer name (dlit 0) 0 0 0 0
  else this.

Definition getName (p : Player) : string := name p.
Definition getRating (p : Player) : D := rating p.
Definition getGamesPlayed (p : Player) : Z := gamesPlayed p.
Definition getWins (p : Player) : Z := wins p.
Definition getLosses (p : Player) : Z := losses p.
Definition getDraws (p : Player) : Z := draws p.

(** [rating = newRating;] *)
Definition updateRating (newRating : D) (p : Player) : Player :=
  mkPlayer (name p) newRating (gamesPlayed p) (wins p) (losses p) (draws p).

(** [wins++; gamesPlayed++;] *)
Definition recordWin (p : Player) : Player :=
  mkPlayer (name p) (rating p) (Int.incr (gamesPlayed p))
           (Int.incr (wins p)) (losses p) (draws p).

(** [losses++; gamesPlayed++;] *)
Definition recordLoss (p : Player) : Player :=
  mkPlayer (name p) (rating p) (Int.incr (gamesPlayed p))
           (wins p) (Int.incr (losses p)) (draws p).

(** [draws++; gamesPlayed++;] *)
Definition recordDraw (p : Player) : Player :=
  mkPlayer (name p) (rating p) (Int.incr (gamesPlayed p))
           (wins p) (losses p) (Int.incr (draws p)).

(** The mutating members of the class, as data: a history of calls made
    on one object. *)
Inductive PlayerOp :=
| CallUpdateRating (newRating : D)
| CallRecordWin
| CallRecordLoss
| CallRecordDraw.

Definition call_op (p : Player) (op : PlayerOp) : Player :=
  match op with
  | CallUpdateRating v => updateRating v p
  | CallRecordWin => recordWin p
  | CallRecordLoss => recordLoss p
  | CallRecordDraw => recordDraw p
  end.

Definition call_ops (ops : list PlayerOp) (p : Player) : Player :=
  fold_left call_op ops p.

(** [gamesPlayed == wins + losses + draws], evaluated on [int]. *)
Definition stats_consistent (p : Player) : Prop :=
  getGamesPlayed p = Int.add (Int.add (getWins p) (getLosses p)) (getDraws p).

(** ** The heap of Player objects *)

(** A [Player&] or [Player*] is the position of the object in the heap. *)
Local Abbreviation heap := (list Player) (only parsing).

(** [r.method()] through a reference. *)
Definition call (r : ref) (method : Player -> Player) (h : heap) : heap :=
  alter method r h.

(** ** Match.cpp *)

Context `{CMath D}.

Record Match := mkMatch {
  player1 : ref;
  player2 : ref;
  result : Z;
  kFactor : D
}.

(** Default argument of the constructor: [double kFactor = 32.0]. *)
Definition default_kFactor : D := dlit 32.

Definition Match_new (p1 p2 : ref) (result : Z) (kFactor : D) : Match :=
  mkMatch p1 p2 result kFactor.

Definition calculateExpectedScore (ratingA ratingB : D) : D :=
  let exponent := ((ratingB - ratingA) / dlit 400)%dbl in
  let powerOfTen := dpow (dlit 10) exponent in
  let expectedScore := (dlit 1 / (dlit 1 + powerOfTen))%dbl in
  expectedScore.

(** [Match::processMatch()]; [None] when a reference names no object. *)
Definition processMatch (m : Match) (h : heap) : option heap :=
  rating1 ← getRating <$> h !! player1 m;
  rating2 ← getRating <$> h !! player2 m;
  let expected1 := calculateExpectedScore rating1 rating2 in
  let expected2 := calculateExpectedScore rating2 rating1 in
  let '(actual1, actual2, h) :=
    if result m =? 1 then
      (dlit 1, dlit 0, call (player2 m) recordLoss (call (player1 m) recordWin h))
    else if result m =? -1 then
      (dlit 0, dlit 1, call (player2 m) recordWin (call (player1 m) recordLoss h))
    else
      (dhalf, dhalf, call (player2 m) recordDraw (call (player1 m) recordDraw h)) in
  let newRating1 := (rating1 + kFactor m * (actual1 - expected1))%dbl in
  let newRating2 := (rating2 + kFactor m * (actual2 - expected2))%dbl in
  Some (call (player2 m) (updateRating newRating2)
          (call (player1 m) (updateRating newRating1) h)).

(** ** RankingSystem.cpp *)

(** [std::vector<std::unique_ptr<Player>> players]: the vector owns the
    objects, a raw pointer to one of them is its position. *)
Record RankingSystem := mkRankingSystem {
  players : heap
}.

Definition RankingSystem_new : RankingSystem := mkRankingSystem [].

(** The first player of that name, [None] for [nullptr]. *)
Definition findPlayer (name : string) (sys : RankingSystem) : option ref :=
  fst <$> list_find (fun player => getName player = name) (players sys).

Definition addPlayer (name : string) (initialRating : D) (sys : RankingSystem)
  : string * RankingSystem :=
  match findPlayer name sys with
  | Some _ => ("Player '" +:+ name +:+ "' already exists!" +:+ nl, sys)
  | None =>
      ("Player '" +:+ name +:+ "' added successfully!" +:+ nl,
       mkRankingSystem (players sys ++ [Player_new name initialRating]))
  end.

(** [None] only if [processMatch] met a dangling reference, which
    [recordMatch_total] excludes. *)
Definition recordMatch (name1 name2 : string) (result : Z) (sys : RankingSystem)
  : option (string * RankingSystem) :=
  let p1 := findPlayer name1 sys in
  let p2 := findPlayer name2 sys in
  match p1, p2 with
  | None, _ => Some ("Player '" +:+ name1 +:+ "' not found!" +:+ nl, sys)
  | Some _, None => Some ("Player '" +:+ name2 +:+ "' not found!" +:+ nl, sys)
  | Some p1, Some p2 =>
      let match_ := Match_new p1 p2 result default_kFactor in
      h ← processMatch match_ (players sys);
      Some ("Match recorded successfully!" +:+ nl, mkRankingSystem h)
  end.

Definition getPlayerCount (sys : RankingSystem) : nat := length (players sys).

Definition getAllPlayerNames (sys : RankingSystem) : list string :=
  map getName (players sys).

(** *** Persistence *)

Context `{DoubleText D}.

(** One line of the CSV file:
    [name,rating,gamesPlayed,wins,losses,draws]. *)
Definition player_line (player : Player) : string :=
  getName player +:+ "," +:+
  dshow (getRating player) +:+ "," +:+
  show_int (getGamesPlayed player) +:+ "," +:+
  show_int (getWins player) +:+ "," +:+
  show_int (getLosses player) +:+ "," +:+
  show_int (getDraws player) +:+ nl.

(** Everything the loop over [players] writes to the file. *)
Definition file_text (players : heap) : string :=
  foldr (fun player text => player_line player +:+ text) EmptyString players.

Definition saveToFile (filename : string) (sys : RankingSystem) (fs : FileSystem)
  : string * FileSystem :=
  if writable fs filename then
    ("Data saved to " +:+ filename +:+ nl,
     write_file filename (file_text (players sys)) fs)
  else ("Error opening file for writing!" +:+ nl, fs).

(** [for (int i = 0; i < n; i++) player->method();] *)
Definition repeat_call (n : Z) (method : Player -> Player) (player : Player) : Player :=
  Nat.iter (Z.to_nat n) method player.

(** The body of the loop of [loadFromFile] for one line.  [rating],
    [games], [wins], [losses] and [draws] are declared without
    initializer: the result is [None] when the code reads one of them
    before any extraction wrote it. *)
Definition load_line (line : string) : option Player :=
  let ss := istream_of line in
  let '(ss, name) := getline ss EmptyString "," in
  let '(ss, rating) := extract_double ss None in
  let ss := ignore ss in
  let '(ss, games) := extract_int ss None in
  let ss := ignore ss in
  let '(ss, wins) := extract_int ss None in
  let ss := ignore ss in
  let '(ss, losses) := extract_int ss None in
  let ss := ignore ss in
  let '(ss, draws) := extract_int ss None in
  rating ← rating;
  let player := Player_new name rating in
  wins ← wins;
  let player := repeat_call wins recordWin player in
  losses ← losses;
  let player := repeat_call losses recordLoss player in
  draws ← draws;
  let player := repeat_call draws recordDraw player in
  Some player.

(** [None] when a line makes [load_line] read an uninitialized variable. *)
Definition loadFromFile (filename : string) (sys : RankingSystem) (fs : FileSystem)
  : option (string * RankingSystem) :=
  match contents fs !! filename with
  | None => Some ("No existing data file found. Starting fresh." +:+ nl, sys)
  | Some text =>
      players ← mapM load_line (file_lines text);
      Some ("Loaded " +:+ show_int (Z.of_nat (length players)) +:+ " players from "
              +:+ filename +:+ nl,
            mkRankingSystem players)
  end.

End Model.

Arguments Player D : clear implicits.
Arguments PlayerOp D : clear implicits.
Arguments Match D : clear implicits.
Arguments RankingSystem D : clear implicits.

Abbreviation heap D := (list (Player D)) (only parsing).

(** ** Vocabulary of the properties *)

(** Characters and digits of a text. *)
Fixpoint contains_char (c : ascii) (s : string) : bool :=
  match s with
  | EmptyString => false
  | String c' rest => Ascii.eqb c' c || contains_char c rest
  end.

Fixpoint all_digits (s : string) : bool :=
  match s with
  | EmptyString => true
  | String c rest => is_digit c && all_digits rest
  end.

(** Does the text start with a character that satisfies [f]? *)
Definition head_is (f : ascii -> bool) (s : string) : bool :=
  match s with
  | EmptyString => false
  | String c _ => f c
  end.

Section Vocabulary.
Context {D : Type} `{Double D} `{CMath D} `{DoubleText D}.

(** The four counters of a player. *)
Definition counters (p : Player D) : Z * Z * Z * Z :=
  (getGamesPlayed p, getWins p, getLosses p, getDraws p).

(** Without wrap-around: the counters stay non-negative and add up in [Z]. *)
Definition stats_exact (bound : Z) (p : Player D) : Prop :=
  0 <= getWins p /\ 0 <= getLosses p /\ 0 <= getDraws p /\
  getGamesPlayed p = getWins p + getLosses p + getDraws p /\
  getGamesPlayed p <= bound.

(** The actual scores and the statistics calls that the three branches
    of [processMatch] select. *)
Definition actual1 (result : Z) : D :=
  if result =? 1 then dlit 1 else if result =? -1 then dlit 0 else dhalf.
Definition actual2 (result : Z) : D :=
  if result =? 1 then dlit 0 else if result =? -1 then dlit 1 else dhalf.
Definition stat1 (result : Z) : Player D -> Player D :=
  if result =? 1 then recordWin else if result =? -1 then recordLoss else recordDraw.
Definition stat2 (result : Z) : Player D -> Player D :=
  if result =? 1 then recordLoss else if result =? -1 then recordWin else recordDraw.

(** [old + kFactor * (actual - expected)] *)
Definition elo_update (k old opponent actual : D) : D :=
  (old + k * (actual - calculateExpectedScore old opponent))%dbl.

(** The three results of a game, as the specification names them. *)
Inductive Outcome := Player1Wins | Drawn | Player2Wins.

Definition result_code (o : Outcome) : Z :=
  match o with Player1Wins => 1 | Drawn => 0 | Player2Wins => -1 end.

Definition spec_actual_scores (o : Outcome) : D * D :=
  match o with
  | Player1Wins => (dlit 1, dlit 0)
  | Player2Wins => (dlit 0, dlit 1)
  | Drawn => (dhalf, dhalf)
  end.

Definition spec_stat_calls (o : Outcome) : (Player D -> Player D) * (Player D -> Player D) :=
  match o with
  | Player1Wins => (recordWin, recordLoss)
  | Player2Wins => (recordLoss, recordWin)
  | Drawn => (recordDraw, recordDraw)
  end.

(** The player who wins a decisive match (result 1 or -1) and the
    opponent. *)
Definition winner (m : Match D) : ref :=
  if result m =? 1 then player1 m else player2 m.
Definition loser (m : Match D) : ref :=
  if result m =? 1 then player2 m else player1 m.

(** The text of a rating can be read back when it stands before a
    comma: it has no line feed and no leading white space, [>>] collects
    all of it and stops at the comma, and its conversion succeeds. *)
Definition rating_text_ok (t : string) : bool :=
  negb (contains_char "010" t) && negb (head_is is_space t) &&
  (let (u, r) := scan_float (t +:+ ",") in String.eqb u t && String.eqb r ",") &&
  negb (snd (dconv t)).

(** The value of the text written for a rating. *)
Definition reread (r : D) : D := fst (dconv (dshow r)).

(** What a saved player is loaded as. *)
Definition reloaded (p : Player D) : Player D :=
  mkPlayer (getName p)
           (if (reread (getRating p) <? dlit 0)%dbl then dlit 0 else reread (getRating p))
           (getGamesPlayed p) (getWins p) (getLosses p) (getDraws p).

(** The players that the file format can carry. *)
Definition storable (p : Player D) : Prop :=
  contains_char "," (getName p) = false /\
  contains_char "010" (getName p) = false /\
  rating_text_ok (dshow (getRating p)) = true /\
  0 <= getWins p /\ 0 <= getLosses p /\ 0 <= getDraws p /\
  getGamesPlayed p = getWins p + getLosses p + getDraws p /\
  getGamesPlayed p <= Int.INT_MAX.

(** A line of the file without its line feed. *)
Definition line_body (p : Player D) : string :=
  getName p +:+ "," +:+
  dshow (getRating p) +:+ "," +:+
  show_int (getGamesPlayed p) +:+ "," +:+
  show_int (getWins p) +:+ "," +:+
  show_int (getLosses p) +:+ "," +:+
  show_int (getDraws p).

End Vocabulary.

(** ** main.cpp *)

(** The text [displayMenu()] prints. *)
Definition displayMenu : string :=
  nl +:+
  "===== ELO RANKING SYSTEM =====" +:+ nl +:+
  "1. Add Player" +:+ nl +:+
  "2. Find Match (Random Opponent)" +:+ nl +:+
  "3. Show Leaderboard" +:+ nl +:+
  "4. Save & Exit" +:+ nl +:+
  "5. Exit without Saving" +:+ nl +:+
  "==============================" +:+ nl +:+
  "Enter choice: ".

Section Main.
Context {D : Type} `{Double D} `{CMath D}.

(** The loop pushes every name that differs from [playerName], in the
    order of the registry. *)
Definition getOtherPlayers (system : RankingSystem D) (playerName : string)
  : list string :=
  let allPlayers := getAllPlayerNames system in
  filter (fun name => name <> playerName) allPlayers.

(** [rand_value] is the number [rand()] returns, from 0 to [RAND_MAX];
    [rand()] is called only when the list is not empty.  [None] stands
    for an access outside the vector. *)
Definition findRandomOpponent (rand_value : Z) (opponents : list string)
  : option string :=
  match opponents with
  | [] => Some EmptyString
  | _ =>
      let randomIndex := Int.wrap (rand_value mod Z.of_nat (length opponents)) in
      if randomIndex <? 0 then None else opponents !! Z.to_nat randomIndex
  end.

(** [case 1] of the menu: [name] is the line read from [std::cin]. *)
Definition menu_add_player (name : string) (system : RankingSystem D)
  : string * RankingSystem D :=
  let '(text, system) := addPlayer name default_rating system in
  ("Enter player name: " +:+ text, system).

(** [case 2] of the menu: [playerName] is the line read from [std::cin],
    [result] the number the extraction stored. *)
Definition menu_find_match (playerName : string) (rand_value result : Z)
    (system : RankingSystem D) : option (string * RankingSystem D) :=
  let out := "Enter your name: " in
  match findPlayer playerName system with
  | None => Some (out +:+ "Player '" +:+ playerName +:+ "' not found!" +:+ nl, system)
  | Some _ =>
      let availableOpponents := getOtherPlayers system playerName in
      match availableOpponents with
      | [] =>
          Some (out +:+ "No other players available! Add more players first." +:+ nl,
                system)
      | _ =>
          opponent ← findRandomOpponent rand_value availableOpponents;
          let out :=
            out +:+ "Opponent found: " +:+ opponent +:+ nl +:+
            "Enter result (1 = " +:+ playerName +:+ " wins, " +:+
            "0 = draw, -1 = " +:+ opponent +:+ " wins): " in
          if negb (result =? 1) && negb (result =? 0) && negb (result =? -1)
          then Some (out +:+ "Invalid result! Must be 1, 0, or -1" +:+ nl, system)
          else
            '(text, system) ← recordMatch playerName opponent result system;
            Some (out +:+ text, system)
      end
  end.

(** The turns of the menu loop that reach the registry, with what they
    read. *)
Inductive Turn :=
| AddPlayerTurn (name : string)
| FindMatchTurn (playerName : string) (rand_value result : Z).

Definition menu_turn (t : Turn) (system : RankingSystem D)
  : option (string * RankingSystem D) :=
  match t with
  | AddPlayerTurn name =>
      let '(text, system) := menu_add_player name system in
      Some (displayMenu +:+ text, system)
  | FindMatchTurn playerName rand_value result =>
      '(text, system) ← menu_find_match playerName rand_value result system;
      Some (displayMenu +:+ text, system)
  end.

(** The value of [rand()] is an [int] that is not negative. *)
Definition rand_in_range (t : Turn) : Prop :=
  match t with
  | AddPlayerTurn _ => True
  | FindMatchTurn _ rand_value _ => 0 <= rand_value <= Int.INT_MAX
  end.

Fixpoint menu_turns (ts : list Turn) (system : RankingSystem D)
  : option (string * RankingSystem D) :=
  match ts with
  | [] => Some (EmptyString, system)
  | t :: ts =>
      '(text, system) ← menu_turn t system;
      '(more, system) ← menu_turns ts system;
      Some (text +:+ more, system)
  end.

End Main.

(** ** Vocabulary of the properties of whole registries *)

Section RegistryVocabulary.
Context {D : Type} `{Double D} `{CMath D} `{DoubleText D}.

(** The rating behind a reference after the match. *)
Definition rating_after (m : Match D) (h : heap D) (r : ref) : option D :=
  h' ← processMatch m h;
  getRating <$> h' !! r.

(** The argument of the last [updateRating] of a history, if any. *)
Definition last_update (ops : list (PlayerOp D)) : option D :=
  fold_left (fun acc op =>
               match op with CallUpdateRating v => Some v | _ => acc end) ops None.

(** The two mutating members of [RankingSystem], as data. *)
Inductive RegistryCall :=
| CallAddPlayer (name : string) (initialRating : D)
| CallRecordMatch (name1 name2 : string) (result : Z).

Definition registry_call (sys : RankingSystem D) (c : RegistryCall)
  : option (RankingSystem D) :=
  match c with
  | CallAddPlayer name initialRating => Some (snd (addPlayer name initialRating sys))
  | CallRecordMatch name1 name2 result => snd <$> recordMatch name1 name2 result sys
  end.

Fixpoint registry_calls (cs : list RegistryCall) (sys : RankingSystem D)
  : option (RankingSystem D) :=
  match cs with
  | [] => Some sys
  | c :: cs => sys ← registry_call sys c; registry_calls cs sys
  end.

(** No two players of the registry have the same name. *)
Definition unique_names (sys : RankingSystem D) : Prop :=
  NoDup (getAllPlayerNames sys).

(** What every loaded player satisfies: the invariant of the counters,
    and a rating that the constructor accepted. *)
Definition loaded_ok (p : Player D) : Prop :=
  stats_consistent p /\
  ((getRating p <? dlit 0)%dbl = false \/ getRating p = dlit 0).

(** A line of the file with any text in its six fields. *)
Definition csv_line (name rating_text : string) (games wins losses draws : Z)
  : string :=
  name +:+ "," +:+ rating_text +:+ "," +:+
  show_int games +:+ "," +:+ show_int wins +:+ "," +:+
  show_int losses +:+ "," +:+ show_int draws.

End RegistryVocabulary.

Arguments Turn : clear implicits.
Arguments RegistryCall D : clear implicits.

(** The sum of the ratings of a registry. *)
Definition total_rating (h : heap R) : R :=
  foldr (fun p acc => (getRating p + acc)%R) 0%R h.

(** ** Concrete registries *)

Definition alice : Player R := mkPlayer "Alice" 1200%R 0 0 0 0.
Definition bob : Player R := mkPlayer "Bob" 1200%R 0 0 0 0.
Definition club : RankingSystem R := mkRankingSystem [alice; bob].

(** No file exists yet, every name can be written. *)
Definition no_files : FileSystem := mkFileSystem ∅ (fun _ => true).

(** Ratings that the type allows and the file format does not keep: more
    than six significant digits, or negative after an update. *)
Definition odd_ratings : RankingSystem float :=
  let sys := snd (addPlayer "Alice" 1234.5625%float RankingSystem_new) in
  let sys := snd (addPlayer "Bob" 123456.75%float sys) in
  let sys := snd (addPlayer "Carol" 5%float sys) in
  mkRankingSystem (call 2 (updateRating (-11.5)%float) (players sys)).

(** Names that the file format does not keep. *)
Definition comma_name : RankingSystem float :=
  snd (addPlayer "Smith, John" default_rating RankingSystem_new).

Definition two_line_name : RankingSystem float :=
  snd (addPlayer ("Ann" +:+ nl +:+ "Lee") default_rating RankingSystem_new).

(** The registry after one decisive match between two new players. *)
Definition after_one_match : RankingSystem float :=
  mkRankingSystem [mkPlayer "Alice" 1216%float 1 1 0 0;
                   mkPlayer "Bob" 1184%float 1 0 1 0].


(** Two new players on binary64. *)
Definition rated (name : string) (rating : float) : Player float :=
  mkPlayer name rating 0 0 0 0.

(** Two players rated 5, below half the default K-factor. *)
Definition novices : heap R :=
  [mkPlayer "Ann" 5%R 0 0 0 0; mkPlayer "Ben" 5%R 0 0 0 0].

(** The files after [after_one_match] was saved. *)
Definition saved_files : FileSystem :=
  snd (saveToFile "players.csv" after_one_match no_files).

(** A file with a blank second line. *)
Definition blank_line_files : FileSystem :=
  write_file "players.csv"
    ("Alice,1216,1,1,0,0" +:+ nl +:+ nl +:+ "Bob,1184,1,0,1,0" +:+ nl) no_files.

(** A short session at the menu. *)
Definition short_session : list Turn :=
  [AddPlayerTurn "Alice"; AddPlayerTurn "Bob"; FindMatchTurn "Alice" 7 1;
   AddPlayerTurn "Bob"; FindMatchTurn "Bob" 12 (-1)].


(* ================================================================== *)
(** * Part II: properties *)
(* ================================================================== *)

(** ** Arithmetic on [int] *)

Lemma wrap_in_range z : Int.in_range (Int.wrap z).
Proof.
  unfold Int.in_range, Int.wrap, Int.INT_MIN, Int.INT_MAX.
  pose proof (Z.mod_pos_bound (z + 2 ^ 31) (2 ^ 32) ltac:(lia)). lia.
Qed.

Lemma wrap_id z : Int.in_range z -> Int.wrap z = z.
Proof.
  unfold Int.in_range, Int.wrap, Int.INT_MIN, Int.INT_MAX. intros Hz.
  rewrite Z.mod_small; lia.
Qed.

Lemma incr_small x : Int.INT_MIN <= x < Int.INT_MAX -> Int.incr x = x + 1.
Proof.
  unfold Int.incr. intros Hx. apply wrap_id.
  unfold Int.in_range, Int.INT_MIN, Int.INT_MAX in *. lia.
Qed.

Lemma wrap_spec a : exists k, Int.wrap a = a + 2 ^ 32 * k.
Proof.
  exists (- ((a + 2 ^ 31) / 2 ^ 32)). unfold Int.wrap.
  pose proof (Z.div_mod (a + 2 ^ 31) (2 ^ 32) ltac:(lia)). lia.
Qed.

Lemma wrap_ext a b k : a = b + 2 ^ 32 * k -> Int.wrap a = Int.wrap b.
Proof.
  intros ->. unfold Int.wrap. f_equal.
  replace (b + 2 ^ 32 * k + 2 ^ 31) with (b + 2 ^ 31 + k * 2 ^ 32) by lia.
  apply Z_mod_plus_full.
Qed.


(** Incrementing one summand of an [int] sum increments the sum. *)
Lemma incr_add3_1 w l d :
  Int.incr (Int.add (Int.add w l) d) = Int.add (Int.add (Int.incr w) l) d.
Proof.
  unfold Int.incr, Int.add.
  destruct (wrap_spec (w + l)) as [k1 ->].
  destruct (wrap_spec (w + l + 2 ^ 32 * k1 + d)) as [k2 ->].
  destruct (wrap_spec (w + 1)) as [k3 ->].
  destruct (wrap_spec (w + 1 + 2 ^ 32 * k3 + l)) as [k4 ->].
  apply (wrap_ext _ _ (k1 + k2 - k3 - k4)). lia.
Qed.

Lemma incr_add3_2 w l d :
  Int.incr (Int.add (Int.add w l) d) = Int.add (Int.add w (Int.incr l)) d.
Proof.
  unfold Int.incr, Int.add.
  destruct (wrap_spec (w + l)) as [k1 ->].
  destruct (wrap_spec (w + l + 2 ^ 32 * k1 + d)) as [k2 ->].
  destruct (wrap_spec (l + 1)) as [k3 ->].
  destruct (wrap_spec (w + (l + 1 + 2 ^ 32 * k3))) as [k4 ->].
  apply (wrap_ext _ _ (k1 + k2 - k3 - k4)). lia.
Qed.

Lemma incr_add3_3 w l d :
  Int.incr (Int.add (Int.add w l) d) = Int.add (Int.add w l) (Int.incr d).
Proof.
  unfold Int.incr, Int.add.
  destruct (wrap_spec (w + l)) as [k1 ->].
  destruct (wrap_spec (w + l + 2 ^ 32 * k1 + d)) as [k2 ->].
  destruct (wrap_spec (d + 1)) as [k3 ->].
  apply (wrap_ext _ _ (k2 - k3)). lia.
Qed.

(** ** Player *)

Section PlayerFacts.
Context {D : Type} `{Double D}.

Lemma Player_new_counters nm (r : D) : counters (Player_new nm r) = (0, 0, 0, 0).
Proof. unfold Player_new. destruct (r <? dlit 0)%dbl; reflexivity. Qed.

Lemma Player_new_name nm (r : D) : getName (Player_new nm r) = nm.
Proof. unfold Player_new. destruct (r <? dlit 0)%dbl; reflexivity. Qed.

Lemma stats_consistent_new nm (r : D) : stats_consistent (Player_new nm r).
Proof.
  unfold stats_consistent.
  pose proof (Player_new_counters nm r) as Hc. unfold counters in Hc.
  injection Hc as -> -> -> ->. reflexivity.
Qed.

Lemma stats_consistent_call_op (p : Player D) op :
  stats_consistent p -> stats_consistent (call_op p op).
Proof.
  unfold stats_consistent, getGamesPlayed, getWins, getLosses, getDraws.
  destruct op; cbn; intros ->;
    auto using incr_add3_1, incr_add3_2, incr_add3_3.
Qed.

Lemma stats_consistent_call_ops ops (p : Player D) :
  stats_consistent p -> stats_consistent (call_ops ops p).
Proof.
  revert p. induction ops as [|op ops IH]; intros p Hp; [exact Hp|].
  apply IH, stats_consistent_call_op, Hp.
Qed.

Lemma stats_exact_call_op bound (p : Player D) op :
  bound < Int.INT_MAX -> stats_exact bound p -> stats_exact (bound + 1) (call_op p op).
Proof.
  unfold stats_exact, getGamesPlayed, getWins, getLosses, getDraws, Int.INT_MAX.
  intros Hb (Hw & Hl & Hd & Hg & Hle).
  destruct op; cbn; rewrite ?incr_small by (unfold Int.INT_MIN, Int.INT_MAX; lia); lia.
Qed.

Lemma stats_exact_call_ops ops bound (p : Player D) :
  bound + Z.of_nat (length ops) <= Int.INT_MAX ->
  stats_exact bound p -> stats_exact (bound + Z.of_nat (length ops)) (call_ops ops p).
Proof.
  revert bound p. induction ops as [|op ops IH]; intros bound p Hb Hp.
  - cbn. rewrite Z.add_0_r. exact Hp.
  - cbn [length] in *. rewrite Nat2Z.inj_succ in *.
    replace (bound + Z.succ (Z.of_nat (length ops)))
      with ((bound + 1) + Z.of_nat (length ops)) by lia.
    apply IH; [lia|]. apply stats_exact_call_op; [lia | exact Hp].
Qed.

(** C4. From construction on, whatever sequence of [recordWin],
    [recordLoss], [recordDraw] and [updateRating] is called on a player,
    [gamesPlayed == wins + losses + draws] holds (on [int], and in [Z] as
    long as fewer than 2^31 calls were made).  Each record operation
    increments one outcome counter together with [gamesPlayed] and leaves
    the other counters alone; [updateRating] changes no counter. *)
Theorem player_stats_invariant (nm : string) (r0 : D) (ops : list (PlayerOp D)) :
  let p := call_ops ops (Player_new nm r0) in
  counters (Player_new nm r0) = (0, 0, 0, 0) /\
  stats_consistent p /\
  (Z.of_nat (length ops) <= Int.INT_MAX ->
     0 <= getWins p /\ 0 <= getLosses p /\ 0 <= getDraws p /\
     getGamesPlayed p = getWins p + getLosses p + getDraws p) /\
  (forall q : Player D,
     counters (recordWin q) =
       (Int.incr (getGamesPlayed q), Int.incr (getWins q), getLosses q, getDraws q) /\
     counters (recordLoss q) =
       (Int.incr (getGamesPlayed q), getWins q, Int.incr (getLosses q), getDraws q) /\
     counters (recordDraw q) =
       (Int.incr (getGamesPlayed q), getWins q, getLosses q, Int.incr (getDraws q)) /\
     forall v, counters (updateRating v q) = counters q).
Proof.
  intros p. split; [apply Player_new_counters|]. split; [|split].
  - apply stats_consistent_call_ops, stats_consistent_new.
  - intros Hlen.
    destruct (stats_exact_call_ops ops 0 (Player_new nm r0)) as (? & ? & ? & ? & _);
      [lia| |tauto].
    pose proof (Player_new_counters nm r0) as Hc. unfold counters in Hc.
    injection Hc as Hg Hw Hl Hd. unfold stats_exact.
    rewrite Hg, Hw, Hl, Hd. lia.
  - intros q. repeat split.
Qed.

(** C6. A negative initial rating is stored as 0.0 and every counter
    starts at 0, whereas [updateRating] stores its argument whatever it
    is and touches nothing else: a negative value written after
    construction stays. *)
Theorem rating_floor_only_at_construction (nm : string) (r v : D) :
  (r <? dlit 0)%dbl = true ->
  (v <? dlit 0)%dbl = true ->
  let p := Player_new nm r in
  getRating p = dlit 0 /\
  counters p = (0, 0, 0, 0) /\
  (forall (q : Player D) (w : D),
     updateRating w q =
       mkPlayer (getName q) w (getGamesPlayed q) (getWins q) (getLosses q) (getDraws q)) /\
  getRating (updateRating v p) = v /\
  (getRating (updateRating v p) <? dlit 0)%dbl = true.
Proof.
  intros Hr Hv p. repeat split.
  - unfold p, Player_new. rewrite Hr. reflexivity.
  - apply Player_new_counters.
  - exact Hv.
Qed.

End PlayerFacts.

(** ** Match *)

Section MatchFacts.
Context {D : Type} `{Double D} `{CMath D}.

(** [processMatch] as four calls through the two references, in the
    order of the source. *)
Lemma processMatch_eq (m : Match D) (h : heap D) p1 p2 :
  h !! player1 m = Some p1 ->
  h !! player2 m = Some p2 ->
  processMatch m h =
    Some (call (player2 m)
            (updateRating (elo_update (kFactor m) (getRating p2) (getRating p1)
                             (actual2 (result m))))
         (call (player1 m)
            (updateRating (elo_update (kFactor m) (getRating p1) (getRating p2)
                             (actual1 (result m))))
         (call (player2 m) (stat2 (result m))
         (call (player1 m) (stat1 (result m)) h)))).
Proof.
  intros H1 H2. unfold processMatch, actual1, actual2, stat1, stat2, elo_update.
  rewrite H1, H2. cbn.
  destruct (result m =? 1); [reflexivity|].
  destruct (result m =? -1); reflexivity.
Qed.

(** Two different objects: each receives its own two calls. *)
Lemma processMatch_distinct (m : Match D) (h : heap D) p1 p2 :
  player1 m <> player2 m ->
  h !! player1 m = Some p1 ->
  h !! player2 m = Some p2 ->
  exists h',
    processMatch m h = Some h' /\
    h' !! player1 m =
      Some (updateRating (elo_update (kFactor m) (getRating p1) (getRating p2)
                            (actual1 (result m)))
              (stat1 (result m) p1)) /\
    h' !! player2 m =
      Some (updateRating (elo_update (kFactor m) (getRating p2) (getRating p1)
                            (actual2 (result m)))
              (stat2 (result m) p2)) /\
    (forall l, l <> player1 m -> l <> player2 m -> h' !! l = h !! l) /\
    length h' = length h.
Proof.
  intros Hne H1 H2. eexists. split; [apply (processMatch_eq m h p1 p2 H1 H2)|].
  unfold call. repeat split.
  - rewrite list_lookup_alter_ne by congruence.
    rewrite list_lookup_alter_eq.
    rewrite list_lookup_alter_ne by congruence.
    rewrite list_lookup_alter_eq, H1. reflexivity.
  - rewrite list_lookup_alter_eq.
    rewrite list_lookup_alter_ne by congruence.
    rewrite list_lookup_alter_eq.
    rewrite list_lookup_alter_ne by congruence.
    rewrite H2. reflexivity.
  - intros l Hl1 Hl2. rewrite !list_lookup_alter_ne by congruence. reflexivity.
  - rewrite !length_alter. reflexivity.
Qed.

(** One object behind both references: it receives all four calls, and
    the second [updateRating] overwrites the first. *)
Lemma processMatch_alias (m : Match D) (h : heap D) p :
  player1 m = player2 m ->
  h !! player1 m = Some p ->
  exists h',
    processMatch m h = Some h' /\
    h' !! player1 m =
      Some (updateRating (elo_update (kFactor m) (getRating p) (getRating p)
                            (actual2 (result m)))
              (stat2 (result m) (stat1 (result m) p))) /\
    (forall l, l <> player1 m -> h' !! l = h !! l) /\
    length h' = length h.
Proof.
  intros Heq H1. assert (H2 : h !! player2 m = Some p) by (rewrite <- Heq; exact H1).
  eexists. split; [apply (processMatch_eq m h p p H1 H2)|].
  unfold call. rewrite <- Heq. repeat split.
  - rewrite !list_lookup_alter_eq, H1. reflexivity.
  - intros l Hl. rewrite !list_lookup_alter_ne by congruence. reflexivity.
  - rewrite !length_alter. reflexivity.
Qed.

(** C1 (as the code has it).  For two different players and a result in
    {1, 0, -1}, [processMatch] replaces each player's rating by
    [old_i + k * (actual_i - expected_i)], with the actual scores (1, 0),
    (0.5, 0.5), (0, 1) and the expected scores both computed from the two
    ratings read before the match, and calls exactly one statistics
    operation on each player: win and loss mirrored, draw on both.  No
    other object changes. *)
Theorem processMatch_elo_update
    (h : heap D) (i j : ref) (p1 p2 : Player D) (o : Outcome) (k : D) :
  i <> j ->
  h !! i = Some p1 ->
  h !! j = Some p2 ->
  let r1 := getRating p1 in
  let r2 := getRating p2 in
  let expected1 := calculateExpectedScore r1 r2 in
  let expected2 := calculateExpectedScore r2 r1 in
  let '(actual1, actual2) := spec_actual_scores o in
  let '(record1, record2) := spec_stat_calls o in
  exists h',
    processMatch (Match_new i j (result_code o) k) h = Some h' /\
    h' !! i = Some (updateRating (r1 + k * (actual1 - expected1))%dbl (record1 p1)) /\
    h' !! j = Some (updateRating (r2 + k * (actual2 - expected2))%dbl (record2 p2)) /\
    (forall l, l <> i -> l <> j -> h' !! l = h !! l).
Proof.
  intros Hne H1 H2.
  destruct (processMatch_distinct (Match_new i j (result_code o) k) h p1 p2 Hne H1 H2)
    as (h' & Hrun & Hi & Hj & Hother & _).
  destruct o; cbn; exists h'; repeat split; assumption.
Qed.

End MatchFacts.

(** ** RankingSystem *)

Section RankingSystemFacts.
Context {D : Type} `{Double D} `{CMath D}.

Lemma findPlayer_Some nm (sys : RankingSystem D) i :
  findPlayer nm sys = Some i ->
  exists p, players sys !! i = Some p /\ getName p = nm.
Proof.
  unfold findPlayer. intros Hf.
  destruct (list_find _ _) as [[i' p]|] eqn:E; [|discriminate].
  cbn in Hf. injection Hf as ->.
  apply list_find_Some in E as (Hl & Hn & _). eauto.
Qed.

Lemma findPlayer_None nm (sys : RankingSystem D) :
  findPlayer nm sys = None <-> nm ∉ getAllPlayerNames sys.
Proof.
  unfold findPlayer, getAllPlayerNames. split.
  - intros Hf. destruct (list_find _ _) as [[i' p]|] eqn:E; [discriminate|].
    apply list_find_None in E. intros Hin.
    apply list_elem_of_In, in_map_iff in Hin as (p & Hp & Hin).
    apply list_elem_of_In in Hin.
    rewrite Forall_forall in E. exact (E p Hin Hp).
  - intros Hnot. destruct (list_find _ _) as [[i' p]|] eqn:E; [|reflexivity].
    apply list_find_Some in E as (Hl & Hn & _). exfalso. apply Hnot.
    apply list_elem_of_In, in_map_iff. exists p. split; [exact Hn|].
    apply list_elem_of_In, list_elem_of_lookup. eauto.
Qed.

(** [recordMatch] always returns: the pointers it passes to the Match
    are never dangling. *)
Lemma recordMatch_total nm1 nm2 res (sys : RankingSystem D) :
  is_Some (recordMatch nm1 nm2 res sys).
Proof.
  unfold recordMatch.
  destruct (findPlayer nm1 sys) as [i|] eqn:E1; [|eauto].
  destruct (findPlayer nm2 sys) as [j|] eqn:E2; [|eauto].
  apply findPlayer_Some in E1 as (p1 & H1 & _).
  apply findPlayer_Some in E2 as (p2 & H2 & _).
  rewrite (processMatch_eq (Match_new i j res default_kFactor) _ p1 p2 H1 H2).
  cbn. eauto.
Qed.

(** C5. When one of the two names has no player in the registry,
    [recordMatch] reports the missing name and returns the registry as it
    was: no rating, no counter and no membership changes, for either
    player.  (When both are found the match is processed, see C1.) *)
Theorem recordMatch_missing_player nm1 nm2 res (sys : RankingSystem D) :
  nm1 ∉ getAllPlayerNames sys \/ nm2 ∉ getAllPlayerNames sys ->
  exists missing,
    (missing = nm1 \/ missing = nm2) /\
    (missing ∉ getAllPlayerNames sys) /\
    recordMatch nm1 nm2 res sys =
      Some ("Player '" +:+ missing +:+ "' not found!" +:+ nl, sys).
Proof.
  intros Hmiss. unfold recordMatch.
  destruct (findPlayer nm1 sys) as [i|] eqn:E1.
  - destruct (findPlayer nm2 sys) as [j|] eqn:E2.
    + exfalso. destruct Hmiss as [Hm|Hm]; apply findPlayer_None in Hm; congruence.
    + exists nm2. repeat split; [now right | now apply findPlayer_None].
  - exists nm1. repeat split; [now left | now apply findPlayer_None].
Qed.

End RankingSystemFacts.

(** ** The rating formula on binary64 *)



(** ** The rating formula over the real numbers *)

Section RealElo.
Local Open Scope R_scope.

Lemma expected_score_R (a b : R) :
  calculateExpectedScore a b = 1 / (1 + Rpower 10 ((b - a) / 400)).
Proof. reflexivity. Qed.

Lemma expected_score_swap (a b : R) :
  calculateExpectedScore b a = 1 / (1 + / Rpower 10 ((b - a) / 400)).
Proof.
  rewrite expected_score_R, <- Rpower_Ropp. do 3 f_equal. lra.
Qed.

Lemma power_of_ten_pos (e : R) : 0 < Rpower 10 e.
Proof. apply exp_pos. Qed.

Lemma expected_score_sum (a b : R) :
  calculateExpectedScore a b + calculateExpectedScore b a = 1.
Proof.
  rewrite (expected_score_swap a b), (expected_score_R a b).
  pose proof (power_of_ten_pos ((b - a) / 400)) as Hp.
  set (p := Rpower 10 ((b - a) / 400)) in *.
  assert (0 < / p) by (apply Rinv_0_lt_compat; exact Hp).
  field. repeat split; lra.
Qed.

Lemma expected_score_equal (x : R) : calculateExpectedScore x x = 1 / 2.
Proof.
  rewrite expected_score_R.
  replace ((x - x) / 400) with 0 by lra.
  rewrite Rpower_O by lra. lra.
Qed.

(** The expected score lies strictly between 0 and 1. *)
Lemma expected_score_range (a b : R) : 0 < calculateExpectedScore a b < 1.
Proof.
  rewrite expected_score_R.
  pose proof (power_of_ten_pos ((b - a) / 400)) as Hp.
  set (p := Rpower 10 ((b - a) / 400)) in *.
  split.
  - apply Rdiv_lt_0_compat; lra.
  - apply (Rmult_lt_reg_r (1 + p)); [lra|]. field_simplify; lra.
Qed.

(** A stronger opponent lowers the expected score. *)
Lemma expected_score_decreasing (a b b' : R) :
  b < b' -> calculateExpectedScore a b' < calculateExpectedScore a b.
Proof.
  intros Hb. rewrite !expected_score_R.
  pose proof (power_of_ten_pos ((b - a) / 400)) as Hp.
  assert (Hlt : Rpower 10 ((b - a) / 400) < Rpower 10 ((b' - a) / 400))
    by (apply Rpower_lt; lra).
  unfold Rdiv. rewrite !Rmult_1_l.
  apply Rinv_lt_contravar; [|lra].
  apply Rmult_lt_0_compat; lra.
Qed.

Lemma actual_scores_sum (res : Z) : actual1 res + actual2 res = 1.
Proof.
  unfold actual1, actual2.
  destruct (res =? 1)%Z; [cbn; lra|]. destruct (res =? -1)%Z; cbn; lra.
Qed.






End RealElo.

(** ** A match of a player against itself *)

Section SelfMatch.
Local Open Scope R_scope.



End SelfMatch.

(** ** Text and streams *)

Lemma append_cons x (a b : string) : String x a +:+ b = String x (a +:+ b).
Proof. reflexivity. Qed.

Lemma append_nil_l (b : string) : EmptyString +:+ b = b.
Proof. reflexivity. Qed.

Lemma append_assoc (a b c : string) : (a +:+ b) +:+ c = a +:+ (b +:+ c).
Proof.
  induction a as [|x a IH]; [reflexivity|]. rewrite !append_cons. now rewrite IH.
Qed.

Lemma append_nil_r (a : string) : a +:+ EmptyString = a.
Proof.
  induction a as [|x a IH]; [reflexivity|]. rewrite append_cons. now rewrite IH.
Qed.

Lemma contains_char_app c a b :
  contains_char c (a +:+ b) = contains_char c a || contains_char c b.
Proof.
  induction a as [|x a IH]; [reflexivity|]. rewrite append_cons. simpl.
  rewrite IH. apply orb_assoc.
Qed.

Lemma split_at_app delim line rest :
  contains_char delim line = false ->
  split_at delim (line +:+ String delim rest) = (line, Some rest).
Proof.
  induction line as [|c line IH]; [rewrite append_nil_l | rewrite append_cons]; simpl.
  - intros _. now rewrite Ascii.eqb_refl.
  - intros Hc. apply orb_false_elim in Hc as [Hc Hline].
    rewrite Hc, (IH Hline). reflexivity.
Qed.

Lemma file_lines_app line rest :
  contains_char "010" line = false ->
  file_lines (line +:+ String "010" rest) = line :: file_lines rest.
Proof.
  induction line as [|c line IH]; [rewrite append_nil_l | rewrite append_cons]; simpl.
  - reflexivity.
  - intros Hc. apply orb_false_elim in Hc as [Hc Hline].
    rewrite Hc, (IH Hline). reflexivity.
Qed.

Lemma all_digits_no_char c ds :
  is_digit c = false -> all_digits ds = true -> contains_char c ds = false.
Proof.
  intros Hc. induction ds as [|x ds IH]; cbn [all_digits contains_char]; [reflexivity|].
  intros Hx. apply andb_prop in Hx as [Hx Hds].
  rewrite (IH Hds), orb_false_r. apply Ascii.eqb_neq. congruence.
Qed.

Lemma span_digits_app ds rest :
  all_digits ds = true ->
  head_is is_digit rest = false ->
  span_digits (ds +:+ rest) = (ds, rest).
Proof.
  intros Hds Hrest.
  induction ds as [|x ds IH];
    [rewrite append_nil_l | rewrite append_cons]; cbn [span_digits].
  - destruct rest as [|c rest]; [reflexivity|].
    cbn [head_is] in Hrest. cbn [span_digits]. now rewrite Hrest.
  - cbn [all_digits] in Hds. apply andb_prop in Hds as [Hx Hds].
    now rewrite Hx, (IH Hds).
Qed.

Lemma string_of_uint_digits d : all_digits (NilEmpty.string_of_uint d) = true.
Proof. induction d; simpl; auto. Qed.

(** The text of a non-negative [int]: a digit, more digits, and the
    number they write is the [int]. *)
Lemma show_int_shape n :
  0 <= n ->
  exists c ds,
    show_int n = String c ds /\ is_digit c = true /\ all_digits ds = true /\
    digits_value (String c ds) = n.
Proof.
  intros Hn. unfold show_int.
  assert (Hd : exists d, Z.to_int n = Decimal.Pos d) by (destruct n; simpl; eauto; lia).
  destruct Hd as [d Hd]. rewrite Hd. cbn [NilEmpty.string_of_int].
  assert (Hval : digits_value (NilEmpty.string_of_uint d) = n).
  { unfold digits_value. rewrite NilEmpty.usu.
    rewrite <- (DecimalZ.of_to n), Hd. reflexivity. }
  pose proof (string_of_uint_digits d) as Hall.
  destruct (NilEmpty.string_of_uint d) as [|c ds] eqn:E.
  - exfalso. assert (d = Decimal.Nil).
    { pose proof (NilEmpty.usu d) as Hu. rewrite E in Hu. simpl in Hu. congruence. }
    subst d. destruct n; simpl in Hd; discriminate.
  - simpl in Hall. apply andb_prop in Hall as [Hc Hds]. eauto 6.
Qed.

Lemma digit_not_space c : is_digit c = true -> is_space c = false.
Proof.
  unfold is_digit, is_space. intros H. apply andb_prop in H as [H1 H2].
  apply N.leb_le in H1, H2.
  apply orb_false_intro; [apply N.eqb_neq; lia|].
  apply andb_false_intro2. apply N.leb_gt. lia.
Qed.

Lemma digit_not_sign c : is_digit c = true -> is_sign c = false.
Proof.
  unfold is_digit, is_sign. intros H. apply andb_prop in H as [H1 H2].
  apply N.leb_le in H1, H2.
  apply orb_false_intro; apply Ascii.eqb_neq; intros ->; simpl in *; lia.
Qed.

(** Reading back a non-negative [int] that is followed by something else
    than a digit. *)
Lemma extract_int_show n rest x :
  0 <= n <= Int.INT_MAX ->
  head_is is_digit rest = false ->
  extract_int (istream_of (show_int n +:+ rest)) x =
    (mkIstream rest (is_empty rest) false, Some n).
Proof.
  intros Hn Hrest.
  destruct (show_int_shape n ltac:(lia)) as (c & ds & Hshow & Hc & Hds & Hval).
  assert (Hspan : span_digits (show_int n +:+ rest) = (show_int n, rest)).
  { apply span_digits_app; [|exact Hrest]. rewrite Hshow. simpl. now rewrite Hc, Hds. }
  unfold extract_int. cbn [good istream_of eofbit failbit buffer negb andb].
  rewrite Hshow in *. rewrite append_cons. cbn [skip_ws].
  rewrite (digit_not_space c Hc). cbn [read_sign]. rewrite (digit_not_sign c Hc).
  rewrite <- append_cons, Hspan.
  cbn [is_minus String.eqb is_empty]. rewrite Hval.
  unfold Int.INT_MIN, Int.INT_MAX in *.
  destruct (Z.ltb_spec n (-2147483648)); [lia|].
  destruct (Z.ltb_spec 2147483647 n); [lia|]. reflexivity.
Qed.

Lemma show_int_no_char c n :
  0 <= n -> is_digit c = false -> contains_char c (show_int n) = false.
Proof.
  intros Hn Hc. destruct (show_int_shape n Hn) as (x & ds & -> & Hx & Hds & _).
  apply all_digits_no_char; [exact Hc|]. cbn [all_digits]. now rewrite Hx, Hds.
Qed.

Lemma skip_ws_id s : head_is is_space s = false -> skip_ws s = s.
Proof. destruct s as [|c s]; [reflexivity|]. cbn [head_is skip_ws]. now intros ->. Qed.

Lemma head_is_app f (a b : string) :
  head_is f (a +:+ b) = if is_empty a then head_is f b else head_is f a.
Proof. destruct a; reflexivity. Qed.

(** The scan of a number stops at the first character that cannot belong
    to it: what follows that character does not matter. *)
Lemma scan_float_body_local n :
  forall t, (String.length t <= n)%nat ->
  forall fm fd fs u rest,
    scan_float_body fm fd fs (t +:+ ",") = (u, ",") ->
    scan_float_body fm fd fs (t +:+ String "," rest) = (u, String "," rest).
Proof.
  induction n as [|n IH]; intros t Hlen fm fd fs u rest.
  - destruct t; [|cbn [String.length] in Hlen; lia].
    rewrite !append_nil_l. cbn. intros [= <-]. reflexivity.
  - destruct t as [|c t]; [rewrite !append_nil_l; cbn; intros [= <-]; reflexivity|].
    cbn [String.length] in Hlen. rewrite !append_cons. cbn [scan_float_body].
    destruct (is_digit c).
    { destruct (scan_float_body true fd fs (t +:+ ",")) as [x r] eqn:E.
      intros [= <- ->]. now rewrite (IH t ltac:(lia) _ _ _ _ rest E). }
    destruct (Ascii.eqb c "." && negb fd && negb fs).
    { destruct (scan_float_body fm true fs (t +:+ ",")) as [x r] eqn:E.
      intros [= <- ->]. now rewrite (IH t ltac:(lia) _ _ _ _ rest E). }
    destruct ((Ascii.eqb c "e" || Ascii.eqb c "E") && negb fs && fm).
    { destruct t as [|c' t].
      - rewrite !append_nil_l. cbn. intros [= <-]. reflexivity.
      - cbn [String.length] in Hlen. rewrite !append_cons.
        destruct (is_sign c').
        + destruct (scan_float_body fm fd true (t +:+ ",")) as [x r] eqn:E.
          intros [= <- ->]. now rewrite (IH t ltac:(lia) _ _ _ _ rest E).
        + rewrite <- !append_cons.
          destruct (scan_float_body fm fd true (String c' t +:+ ",")) as [x r] eqn:E.
          intros [= <- ->].
          now rewrite (IH (String c' t) ltac:(cbn [String.length]; lia) _ _ _ _ rest E). }
    intros [= _ Habs]. destruct t; discriminate.
Qed.

Lemma scan_float_local t u rest :
  scan_float (t +:+ ",") = (u, ",") ->
  scan_float (t +:+ "," +:+ rest) = (u, "," +:+ rest).
Proof.
  change ("," +:+ rest) with (String "," rest). unfold scan_float.
  destruct t as [|c t].
  - rewrite !append_nil_l. cbn. intros [= <-]. reflexivity.
  - rewrite !append_cons. cbn [read_sign]. destruct (is_sign c).
    + destruct (scan_float_body false false false (t +:+ ",")) as [x r] eqn:E.
      intros [= <- ->].
      now rewrite (scan_float_body_local _ t (le_n _) _ _ _ _ rest E).
    + rewrite <- !append_cons.
      destruct (scan_float_body false false false (String c t +:+ ",")) as [x r] eqn:E.
      intros [= <- ->].
      now rewrite (scan_float_body_local _ (String c t) (le_n _) _ _ _ _ rest E).
Qed.

Lemma getline_field nm rest str :
  contains_char "," nm = false ->
  getline (istream_of (nm +:+ "," +:+ rest)) str "," = (istream_of rest, nm).
Proof.
  intros Hnm. unfold getline. cbn [good istream_of eofbit failbit buffer negb andb].
  change ("," +:+ rest) with (String "," rest). now rewrite split_at_app.
Qed.

Lemma ignore_comma rest :
  ignore (mkIstream ("," +:+ rest) false false) = istream_of rest.
Proof. reflexivity. Qed.

Lemma extract_int_field n rest x :
  0 <= n <= Int.INT_MAX ->
  extract_int (istream_of (show_int n +:+ "," +:+ rest)) x =
    (mkIstream ("," +:+ rest) false false, Some n).
Proof. intros Hn. now rewrite extract_int_show. Qed.

Lemma extract_int_last n x :
  0 <= n <= Int.INT_MAX ->
  extract_int (istream_of (show_int n)) x = (mkIstream EmptyString true false, Some n).
Proof.
  intros Hn. rewrite <- (append_nil_r (show_int n)). now rewrite extract_int_show.
Qed.

(** ** Persistence *)

Section PersistenceFacts.
Context {D : Type} `{Double D} `{DoubleText D}.

Lemma player_line_body (p : Player D) : player_line p = line_body p +:+ nl.
Proof. unfold player_line, line_body. now rewrite !append_assoc. Qed.

Lemma rating_text_ok_inv t :
  rating_text_ok t = true ->
  contains_char "010" t = false /\ head_is is_space t = false /\
  scan_float (t +:+ ",") = (t, ",") /\ snd (dconv t) = false.
Proof.
  unfold rating_text_ok. intros Hok.
  apply andb_prop in Hok as [Hok Hconv]. apply andb_prop in Hok as [Hok Hscan].
  apply andb_prop in Hok as [Hnl Hsp].
  apply negb_true_iff in Hnl, Hsp, Hconv. repeat split; try assumption.
  destruct (scan_float (t +:+ ",")) as [u r].
  apply andb_prop in Hscan as [Hu Hr].
  apply String.eqb_eq in Hu, Hr. congruence.
Qed.

Lemma extract_double_field t rest (x : option D) :
  rating_text_ok t = true ->
  extract_double (istream_of (t +:+ "," +:+ rest)) x =
    (mkIstream ("," +:+ rest) false false, Some (fst (dconv t))).
Proof.
  intros Hok. apply rating_text_ok_inv in Hok as (_ & Hsp & Hscan & Hconv).
  unfold extract_double. cbn [good istream_of eofbit failbit buffer negb andb].
  rewrite skip_ws_id.
  2: { rewrite head_is_app. destruct (is_empty t); [reflexivity | exact Hsp]. }
  destruct (t +:+ "," +:+ rest) eqn:E; [destruct t; discriminate|].
  rewrite <- E, (scan_float_local t t rest Hscan).
  destruct (dconv t) as [v failed]. cbn in Hconv. subst failed. reflexivity.
Qed.

Lemma Player_new_eq nm (r : D) :
  Player_new nm r = mkPlayer nm (if (r <? dlit 0)%dbl then dlit 0 else r) 0 0 0 0.
Proof. unfold Player_new. now destruct (r <? dlit 0)%dbl. Qed.

Lemma iter_recordWin (k : nat) (p : Player D) :
  Int.INT_MIN <= gamesPlayed p -> gamesPlayed p + Z.of_nat k <= Int.INT_MAX ->
  Int.INT_MIN <= wins p -> wins p + Z.of_nat k <= Int.INT_MAX ->
  Nat.iter k recordWin p =
    mkPlayer (name p) (rating p) (gamesPlayed p + Z.of_nat k) (wins p + Z.of_nat k)
             (losses p) (draws p).
Proof.
  induction k as [|k IH]; intros Hg1 Hg2 Hw1 Hw2.
  - cbn. rewrite !Z.add_0_r. now destruct p.
  - rewrite Nat.iter_succ, IH by lia. unfold recordWin. cbn.
    rewrite !incr_small by lia. f_equal; lia.
Qed.

Lemma iter_recordLoss (k : nat) (p : Player D) :
  Int.INT_MIN <= gamesPlayed p -> gamesPlayed p + Z.of_nat k <= Int.INT_MAX ->
  Int.INT_MIN <= losses p -> losses p + Z.of_nat k <= Int.INT_MAX ->
  Nat.iter k recordLoss p =
    mkPlayer (name p) (rating p) (gamesPlayed p + Z.of_nat k) (wins p)
             (losses p + Z.of_nat k) (draws p).
Proof.
  induction k as [|k IH]; intros Hg1 Hg2 Hw1 Hw2.
  - cbn. rewrite !Z.add_0_r. now destruct p.
  - rewrite Nat.iter_succ, IH by lia. unfold recordLoss. cbn.
    rewrite !incr_small by lia. f_equal; lia.
Qed.

Lemma iter_recordDraw (k : nat) (p : Player D) :
  Int.INT_MIN <= gamesPlayed p -> gamesPlayed p + Z.of_nat k <= Int.INT_MAX ->
  Int.INT_MIN <= draws p -> draws p + Z.of_nat k <= Int.INT_MAX ->
  Nat.iter k recordDraw p =
    mkPlayer (name p) (rating p) (gamesPlayed p + Z.of_nat k) (wins p)
             (losses p) (draws p + Z.of_nat k).
Proof.
  induction k as [|k IH]; intros Hg1 Hg2 Hw1 Hw2.
  - cbn. rewrite !Z.add_0_r. now destruct p.
  - rewrite Nat.iter_succ, IH by lia. unfold recordDraw. cbn.
    rewrite !incr_small by lia. f_equal; lia.
Qed.

(** Replaying the saved numbers of wins, losses and draws on a new
    player rebuilds the four counters. *)
Lemma replay_counters nm (r : D) w l d :
  0 <= w -> 0 <= l -> 0 <= d -> w + l + d <= Int.INT_MAX ->
  repeat_call d recordDraw
    (repeat_call l recordLoss (repeat_call w recordWin (mkPlayer nm r 0 0 0 0))) =
  mkPlayer nm r (w + l + d) w l d.
Proof.
  intros Hw Hl Hd Hsum. unfold repeat_call, Int.INT_MAX in *.
  rewrite iter_recordWin by (cbn; unfold Int.INT_MIN, Int.INT_MAX; lia). cbn.
  rewrite iter_recordLoss by (cbn; unfold Int.INT_MIN, Int.INT_MAX; lia). cbn.
  rewrite iter_recordDraw by (cbn; unfold Int.INT_MIN, Int.INT_MAX; lia). cbn.
  rewrite !Z2Nat.id by lia. reflexivity.
Qed.

Lemma load_line_body (p : Player D) :
  storable p -> load_line (line_body p) = Some (reloaded p).
Proof.
  intros (Hcomma & _ & Htext & Hw & Hl & Hd & Hg & Hmax).
  unfold Int.INT_MAX in *. unfold load_line, line_body.
  rewrite getline_field by exact Hcomma.
  rewrite extract_double_field by exact Htext.
  rewrite ignore_comma, extract_int_field by (unfold Int.INT_MAX; lia).
  rewrite ignore_comma, extract_int_field by (unfold Int.INT_MAX; lia).
  rewrite ignore_comma, extract_int_field by (unfold Int.INT_MAX; lia).
  rewrite ignore_comma, extract_int_last by (unfold Int.INT_MAX; lia).
  cbn [mbind option_bind]. rewrite Player_new_eq.
  rewrite replay_counters by (unfold Int.INT_MAX; lia).
  unfold reloaded, reread. rewrite Hg. reflexivity.
Qed.

Lemma line_body_one_line (p : Player D) :
  storable p -> contains_char "010" (line_body p) = false.
Proof.
  intros (_ & Hnl & Htext & Hw & Hl & Hd & Hg & _).
  apply rating_text_ok_inv in Htext as (Htext & _).
  unfold line_body. rewrite !contains_char_app, Hnl, Htext.
  rewrite !show_int_no_char by (try reflexivity; lia). reflexivity.
Qed.

Lemma file_lines_text (ps : list (Player D)) :
  Forall storable ps -> file_lines (file_text ps) = map line_body ps.
Proof.
  induction 1 as [|p ps Hp _ IH]; [reflexivity|].
  cbn [file_text foldr map]. fold (file_text ps).
  rewrite player_line_body, append_assoc.
  change (nl +:+ file_text ps) with (String "010" (file_text ps)).
  rewrite file_lines_app by (apply line_body_one_line, Hp). now rewrite IH.
Qed.

Lemma mapM_load_line (ps : list (Player D)) :
  Forall storable ps -> mapM load_line (map line_body ps) = Some (map reloaded ps).
Proof.
  intros Hps. apply mapM_Some_2.
  induction Hps as [|p ps Hp _ IH]; constructor; [|exact IH].
  apply load_line_body, Hp.
Qed.

(** What [loadFromFile] does when the file cannot be opened: it reports
    it and returns before [players.clear()], so the registry stays as it
    was.  A new, empty registry stays empty. *)
Lemma loadFromFile_unopened filename (sys : RankingSystem D) fs :
  contents fs !! filename = None ->
  loadFromFile filename sys fs =
    Some ("No existing data file found. Starting fresh." +:+ nl, sys).
Proof. intros Hmiss. unfold loadFromFile. now rewrite Hmiss. Qed.

(** C7 (as the code has it).  Saving a registry of storable players and
    loading the file into any registry gives, in the same order, players
    with the same name and the same four counters, and as rating the
    value of the saved text of the rating, replaced by 0.0 if negative.
    The registry comes back identical when the text of every rating
    reads back as that same, non-negative rating. *)
Theorem save_load_roundtrip filename (sys sys0 : RankingSystem D) fs :
  writable fs filename = true ->
  Forall storable (players sys) ->
  exists out,
    loadFromFile filename sys0 (snd (saveToFile filename sys fs)) =
      Some (out, mkRankingSystem (map reloaded (players sys))) /\
    (Forall (fun p => reread (getRating p) = getRating p /\
                      (getRating p <? dlit 0)%dbl = false) (players sys) ->
     mkRankingSystem (map reloaded (players sys)) = sys).
Proof.
  intros Hw Hps. unfold saveToFile. rewrite Hw. cbn [snd].
  unfold loadFromFile, write_file. cbn [contents]. rewrite lookup_insert_eq.
  rewrite (file_lines_text _ Hps), (mapM_load_line _ Hps). cbn [mbind option_bind].
  eexists. split; [reflexivity|].
  intros Hsame. destruct sys as [ps]. cbn [players] in *. f_equal.
  clear Hps. induction Hsame as [|p ps [Hr Hpos] _ IH]; [reflexivity|].
  cbn [map]. rewrite IH. f_equal.
  unfold reloaded. rewrite Hr, Hpos. now destruct p.
Qed.

End PersistenceFacts.

(* ================================================================== *)
(** * Part III: the properties at concrete inputs *)
(* ================================================================== *)

(** ** Over the real numbers *)

Section RealExamples.
Local Open Scope R_scope.

(** Two players at 1200, K = 32, player 1 wins: 1216 and 1184, one win
    and one loss recorded. *)
Lemma processMatch_elo_update_witness :
  exists h',
    processMatch (Match_new 0 1 1 32) [alice; bob] = Some h' /\
    h' !! 0%nat = Some (mkPlayer "Alice" 1216 1 1 0 0) /\
    h' !! 1%nat = Some (mkPlayer "Bob" 1184 1 0 1 0).
Proof.
  pose proof (processMatch_elo_update [alice; bob] 0 1 alice bob Player1Wins 32
                ltac:(discriminate) eq_refl eq_refl) as Hrun.
  cbv beta iota zeta delta [spec_actual_scores spec_stat_calls result_code] in Hrun.
  destruct Hrun as (h' & Hrun & H0 & H1 & _).
  exists h'. split; [exact Hrun|].
  rewrite H0, H1. unfold alice, bob, updateRating, recordWin, recordLoss, getRating.
  cbn [name rating gamesPlayed wins losses draws dadd dsub dmul dlit R_Double].
  rewrite !expected_score_equal.
  split; do 2 f_equal; lra.
Defined.


(** C1, counterexample.  A Match whose two references name the same
    player, with result 1 and K = 32.  As player 1 she would get
    [1200 + 32 * (1 - expected)] and one [recordWin]; she ends with 1184, a
    win and a loss. *)
Lemma processMatch_same_object_update :
  let claimed :=
    updateRating (1200 + 32 * (1 - calculateExpectedScore 1200 1200)) (recordWin alice) in
  exists h',
    processMatch (Match_new 0 0 1 32) [alice] = Some h' /\
    h' !! 0%nat = Some (mkPlayer "Alice" 1184 2 1 1 0) /\
    claimed = mkPlayer "Alice" 1216 1 1 0 0 /\
    h' !! 0%nat <> Some claimed.
Proof.
  intros claimed.
  destruct (processMatch_alias (Match_new 0 0 1 32) [alice] alice eq_refl eq_refl)
    as (h' & Hrun & H0 & _).
  cbn [player1 player2 result kFactor Match_new] in H0.
  assert (Hq : h' !! 0%nat = Some (mkPlayer "Alice" 1184 2 1 1 0)).
  { rewrite H0. unfold elo_update. rewrite expected_score_equal.
    unfold alice, updateRating, actual2, stat1, stat2, recordWin, recordLoss, getRating.
    cbn [name rating gamesPlayed wins losses draws Z.eqb Pos.eqb
         dadd dsub dmul dlit R_Double].
    do 2 f_equal. lra. }
  assert (Hc : claimed = mkPlayer "Alice" 1216 1 1 0 0).
  { unfold claimed. rewrite expected_score_equal.
    unfold alice, updateRating, recordWin.
    cbn [name rating gamesPlayed wins losses draws]. f_equal. lra. }
  exists h'. split; [exact Hrun|]. split; [exact Hq|]. split; [exact Hc|].
  rewrite Hq, Hc. intros Heq. discriminate Heq.
Qed.


(** Test 8 of the registry tests: a match against an unknown player. *)
Lemma recordMatch_missing_player_witness :
  recordMatch "Alice" "Carol" 1 club = Some ("Player 'Carol' not found!" +:+ nl, club).
Proof.
  destruct (recordMatch_missing_player "Alice" "Carol" 1 club) as (missing & Hwho & Hnot & Hrun).
  - right. unfold club, getAllPlayerNames. cbn [players map getName alice bob name].
    rewrite !not_elem_of_cons. repeat split; try discriminate. apply not_elem_of_nil.
  - rewrite Hrun. destruct Hwho as [-> | ->]; [|reflexivity].
    exfalso. apply Hnot. unfold club, getAllPlayerNames. cbn. apply list_elem_of_here.
Defined.



End RealExamples.

(** ** Over binary64 numbers *)

Section Binary64Examples.

(** [Player("X", -100.0).getRating() == 0.0], and a later
    [updateRating(-5.0)] is kept. *)
Lemma rating_floor_only_at_construction_witness :
  getRating (Player_new "X" (-100)%float) = 0%float /\
  getRating (updateRating (-5)%float (Player_new "X" (-100)%float)) = (-5)%float.
Proof.
  destruct (@rating_floor_only_at_construction float float_Double
              "X" (-100)%float (-5)%float
              ltac:(vm_compute; reflexivity) ltac:(vm_compute; reflexivity))
    as (Hnew & _ & _ & Hupd & _).
  split; [exact Hnew | exact Hupd].
Defined.

(** A win, a loss, a new rating and a draw: three games. *)
Lemma player_stats_invariant_witness :
  let p := call_ops [CallRecordWin; CallRecordLoss; CallUpdateRating 1190%float;
                     CallRecordDraw] (Player_new "X" 1200%float) in
  stats_consistent p /\
  getGamesPlayed p = getWins p + getLosses p + getDraws p /\
  counters p = (3, 1, 1, 1).
Proof.
  intros p.
  destruct (player_stats_invariant "X" 1200%float
              [CallRecordWin; CallRecordLoss; CallUpdateRating 1190%float; CallRecordDraw])
    as (_ & Hcons & Hexact & _).
  destruct (Hexact ltac:(vm_compute; discriminate)) as (_ & _ & _ & Hsum).
  split; [exact Hcons|]. split; [exact Hsum | reflexivity].
Defined.

Lemma after_one_match_storable : Forall storable (players after_one_match).
Proof.
  repeat constructor; try (vm_compute; reflexivity); vm_compute; discriminate.
Qed.

Lemma save_load_roundtrip_witness :
  exists out,
    loadFromFile "players.csv" RankingSystem_new
      (snd (saveToFile "players.csv" after_one_match no_files)) =
    Some (out, after_one_match).
Proof.
  destruct (save_load_roundtrip "players.csv" after_one_match RankingSystem_new no_files
              eq_refl after_one_match_storable) as (out & Hload & Hsame).
  exists out. rewrite Hload, Hsame; [reflexivity|].
  repeat constructor; vm_compute; reflexivity.
Defined.

(** C7, counterexample.  Ratings do not survive the file when they have
    more than six significant digits (1234.5625 is written as [1234.56],
    123456.75 as [123457]) or are negative (-11.5 is loaded as 0).  A name
    with a comma or a line feed shifts the fields of its line: the loop
    then reads [wins] before anything was stored in it. *)
Lemma save_load_loses_rating :
  let fs := snd (saveToFile "players.csv" odd_ratings no_files) in
  (contents fs !! "players.csv" =
     Some ("Alice,1234.56,0,0,0,0" +:+ nl +:+
           "Bob,123457,0,0,0,0" +:+ nl +:+
           "Carol,-11.5,0,0,0,0" +:+ nl) /\
   exists out sys',
     loadFromFile "players.csv" RankingSystem_new fs = Some (out, sys') /\
     map getRating (players odd_ratings) = [1234.5625; 123456.75; -11.5]%float /\
     map getRating (players sys') = [fst (Binary64.conv "1234.56"); 123457; 0]%float /\
     sys' <> odd_ratings) /\
  loadFromFile "players.csv" RankingSystem_new
    (snd (saveToFile "players.csv" comma_name no_files)) = None /\
  loadFromFile "players.csv" RankingSystem_new
    (snd (saveToFile "players.csv" two_line_name no_files)) = None.
Proof.
  intros fs. split; [split|split]; try (vm_compute; reflexivity).
  eexists _, _. split; [vm_compute; reflexivity|].
  split; [vm_compute; reflexivity|]. split; [vm_compute; reflexivity|].
  intros Heq.
  apply (f_equal (fun s => map (fun p => Prim2SF (getRating p)) (players s))) in Heq.
  vm_compute in Heq. discriminate.
Qed.

(** C8, at a failing input.  The declaration of [loadFromFile] says that
    it clears the current players and that a missing file gives an empty
    system.  Loading a file that does not exist into a registry that holds
    two players returns that registry: it is not empty afterwards. *)
Theorem loadFromFile_missing_file_keeps_players :
  contents no_files !! "nonexistent_file.csv" = None /\
  loadFromFile "nonexistent_file.csv" after_one_match no_files =
    Some ("No existing data file found. Starting fresh." +:+ nl, after_one_match) /\
  getPlayerCount after_one_match = 2%nat /\
  ~ (exists out sys',
       loadFromFile "nonexistent_file.csv" after_one_match no_files = Some (out, sys') /\
       getPlayerCount sys' = 0%nat).
Proof.
  assert (Hmiss : contents no_files !! "nonexistent_file.csv" = None) by reflexivity.
  split; [exact Hmiss|]. split; [apply loadFromFile_unopened, Hmiss|].
  split; [reflexivity|].
  intros (out & sys' & Hload & Hcount).
  rewrite (loadFromFile_unopened _ _ _ Hmiss) in Hload.
  injection Hload as _ <-. discriminate Hcount.
Qed.

End Binary64Examples.

(** ** The rating formula on binary64 *)

Section Binary64Elo.
Local Open Scope float_scope.




(** On binary64 the two ratings of a match between two different players
    need not add up to what they were: with K = 1e20 two players at 1200
    end at 5e19 and -5e19, which add up to 0. *)
Lemma processMatch_sum_lost_on_binary64 :
  processMatch (Match_new 0 1 1 1e20) [rated "Alice" 1200; rated "Bob" 1200] =
    Some [mkPlayer "Alice" 5e19 1 1 0 0; mkPlayer "Bob" (-5e19) 1 0 1 0] /\
  5e19 + -5e19 = 0 /\ 1200 + 1200 = 2400.
Proof. repeat split; vm_compute; reflexivity. Qed.

End Binary64Elo.

(* ================================================================== *)
(** * Part IV: further properties of the code *)
(* ================================================================== *)

(** ** The registry: addPlayer, findPlayer, recordMatch *)

Section RegistryFacts.
Context {D : Type} `{Double D} `{CMath D}.

Lemma getName_Player_new nm (r : D) : getName (Player_new nm r) = nm.
Proof. unfold Player_new. destruct (dltb r (dlit 0)); reflexivity. Qed.

Lemma findPlayer_app_old nm (sys : RankingSystem D) (p : Player D) i :
  findPlayer nm sys = Some i ->
  findPlayer nm (mkRankingSystem (players sys ++ [p])) = Some i.
Proof.
  unfold findPlayer. cbn. intros Hf.
  destruct (list_find _ (players sys)) as [[i' q]|] eqn:E; [|discriminate].
  cbn in Hf. injection Hf as ->.
  rewrite (list_find_app_l _ _ _ _ _ E). reflexivity.
Qed.

Lemma findPlayer_app_new nm (sys : RankingSystem D) (p : Player D) :
  findPlayer nm sys = None ->
  findPlayer nm (mkRankingSystem (players sys ++ [p])) =
    if decide (getName p = nm) then Some (length (players sys)) else None.
Proof.
  unfold findPlayer. cbn. intros Hf.
  destruct (list_find _ (players sys)) as [[i' q]|] eqn:E; [discriminate|].
  rewrite (list_find_app_r _ _ _ E). cbn.
  destruct (decide (getName p = nm)); cbn; [|reflexivity].
  f_equal.
Qed.

(** X1. Adding a player under a name that is not in the registry puts a
    newly constructed player (rating floored at 0, counters 0) behind all
    the others: the count grows by one, the name is found at the last
    position, and every other name is found where it was, with the same
    player. *)
Theorem addPlayer_fresh_name nm (r : D) (sys : RankingSystem D) :
  (nm ∉ getAllPlayerNames sys) ->
  exists sys',
    addPlayer nm r sys = ("Player '" +:+ nm +:+ "' added successfully!" +:+ nl, sys') /\
    players sys' = players sys ++ [Player_new nm r] /\
    getPlayerCount sys' = S (getPlayerCount sys) /\
    findPlayer nm sys' = Some (getPlayerCount sys) /\
    players sys' !! getPlayerCount sys = Some (Player_new nm r) /\
    (forall other, other <> nm -> findPlayer other sys' = findPlayer other sys) /\
    (forall i p, players sys !! i = Some p -> players sys' !! i = Some p).
Proof.
  intros Hfresh. apply findPlayer_None in Hfresh.
  eexists. split; [unfold addPlayer; rewrite Hfresh; reflexivity|].
  cbn [players]. unfold getPlayerCount. cbn [players].
  repeat split.
  - rewrite length_app. cbn. lia.
  - rewrite (findPlayer_app_new nm sys _ Hfresh), getName_Player_new.
    rewrite decide_True by reflexivity. reflexivity.
  - rewrite lookup_app_r by lia. rewrite Nat.sub_diag. reflexivity.
  - intros other Hother.
    destruct (findPlayer other sys) as [i|] eqn:E.
    + apply findPlayer_app_old. exact E.
    + rewrite (findPlayer_app_new other sys _ E), getName_Player_new.
      rewrite decide_False by congruence. reflexivity.
  - intros i p Hi. rewrite lookup_app_l by (eapply lookup_lt_Some; exact Hi).
    exact Hi.
Qed.

(** X2. Adding a player under a name that the registry already has is
    refused: the message names the player and the registry is returned
    as it was, whatever initial rating was asked for. *)
Theorem addPlayer_existing_name nm (r : D) (sys : RankingSystem D) :
  (nm ∈ getAllPlayerNames sys) ->
  addPlayer nm r sys = ("Player '" +:+ nm +:+ "' already exists!" +:+ nl, sys).
Proof.
  intros Hin. unfold addPlayer.
  destruct (findPlayer nm sys) as [i|] eqn:E; [reflexivity|].
  apply findPlayer_None in E. contradiction.
Qed.

(** X3. [findPlayer] returns the first player of that name in the order
    of insertion: no earlier player has the name; it returns the null
    pointer only when no player at all has the name. *)
Theorem findPlayer_first_match nm (sys : RankingSystem D) :
  match findPlayer nm sys with
  | Some i =>
      exists p, players sys !! i = Some p /\ getName p = nm /\
        forall j q, (j < i)%nat -> players sys !! j = Some q -> getName q <> nm
  | None => forall j q, players sys !! j = Some q -> getName q <> nm
  end.
Proof.
  unfold findPlayer.
  destruct (list_find _ (players sys)) as [[i p]|] eqn:E; cbn.
  - apply list_find_Some in E as (Hl & Hn & Hfirst).
    exists p. repeat split; [exact Hl|exact Hn|].
    intros j q Hj Hq. exact (Hfirst j q Hq Hj).
  - apply list_find_None in E. intros j q Hq.
    rewrite Forall_forall in E. apply E. apply list_elem_of_lookup. eauto.
Qed.

Lemma getName_stat1 res (p : Player D) : getName (stat1 res p) = getName p.
Proof.
  unfold stat1. destruct (res =? 1); [reflexivity|].
  destruct (res =? -1); reflexivity.
Qed.

Lemma getName_stat2 res (p : Player D) : getName (stat2 res p) = getName p.
Proof.
  unfold stat2. destruct (res =? 1); [reflexivity|].
  destruct (res =? -1); reflexivity.
Qed.

Lemma names_call r (f : Player D -> Player D) (h : heap D) :
  (forall p, getName (f p) = getName p) ->
  map getName (call r f h) = map getName h.
Proof.
  intros Hf. unfold call. apply list_eq. intros i.
  rewrite !list_lookup_fmap.
  destruct (decide (i = r)) as [->|Hne].
  - rewrite list_lookup_alter_eq. destruct (h !! r); cbn; [rewrite Hf|]; reflexivity.
  - rewrite list_lookup_alter_ne by congruence. reflexivity.
Qed.

(** A match changes no name. *)
Lemma processMatch_names (m : Match D) (h h' : heap D) :
  processMatch m h = Some h' -> map getName h' = map getName h.
Proof.
  intros Hp.
  destruct (h !! player1 m) as [p1|] eqn:H1;
    [|unfold processMatch in Hp; rewrite H1 in Hp; discriminate].
  destruct (h !! player2 m) as [p2|] eqn:H2;
    [|unfold processMatch in Hp; rewrite H1, H2 in Hp; discriminate].
  rewrite (processMatch_eq m h p1 p2 H1 H2) in Hp. injection Hp as <-.
  rewrite !names_call; try reflexivity.
  - apply getName_stat1.
  - apply getName_stat2.
Qed.

Lemma recordMatch_names nm1 nm2 res (sys sys' : RankingSystem D) out :
  recordMatch nm1 nm2 res sys = Some (out, sys') ->
  getAllPlayerNames sys' = getAllPlayerNames sys.
Proof.
  unfold recordMatch, getAllPlayerNames.
  destruct (findPlayer nm1 sys) as [i|]; [|intros [= _ <-]; reflexivity].
  destruct (findPlayer nm2 sys) as [j|]; [|intros [= _ <-]; reflexivity].
  destruct (processMatch _ _) as [h'|] eqn:E; cbn; [|discriminate].
  intros [= _ <-]. cbn. apply (processMatch_names _ _ _ E).
Qed.

(** What a match leaves alone: every object behind neither reference. *)
Lemma processMatch_others (m : Match D) (h h' : heap D) l :
  processMatch m h = Some h' ->
  l <> player1 m -> l <> player2 m -> h' !! l = h !! l.
Proof.
  intros Hp Hl1 Hl2.
  destruct (h !! player1 m) as [p1|] eqn:H1;
    [|unfold processMatch in Hp; rewrite H1 in Hp; discriminate].
  destruct (h !! player2 m) as [p2|] eqn:H2;
    [|unfold processMatch in Hp; rewrite H1, H2 in Hp; discriminate].
  rewrite (processMatch_eq m h p1 p2 H1 H2) in Hp. injection Hp as <-.
  unfold call. rewrite !list_lookup_alter_ne by congruence. reflexivity.
Qed.

(** X4. [recordMatch] always returns, keeps the number of players, their
    order and their names, and leaves every player whose name is neither
    of the two given exactly as it was: rating and all four counters. *)
Theorem recordMatch_bystanders nm1 nm2 res (sys : RankingSystem D) :
  exists out sys',
    recordMatch nm1 nm2 res sys = Some (out, sys') /\
    getAllPlayerNames sys' = getAllPlayerNames sys /\
    getPlayerCount sys' = getPlayerCount sys /\
    forall i p, players sys !! i = Some p ->
      getName p <> nm1 -> getName p <> nm2 -> players sys' !! i = Some p.
Proof.
  destruct (recordMatch_total nm1 nm2 res sys) as [[out sys'] Hr].
  exists out, sys'. split; [exact Hr|].
  pose proof (recordMatch_names _ _ _ _ _ _ Hr) as Hnames.
  split; [exact Hnames|]. split.
  - unfold getPlayerCount. unfold getAllPlayerNames in Hnames.
    apply (f_equal length) in Hnames. rewrite !length_map in Hnames. exact Hnames.
  - intros i p Hi Hn1 Hn2. revert Hr. unfold recordMatch.
    destruct (findPlayer nm1 sys) as [i1|] eqn:E1; [|intros [= _ <-]; exact Hi].
    destruct (findPlayer nm2 sys) as [i2|] eqn:E2; [|intros [= _ <-]; exact Hi].
    destruct (processMatch _ _) as [h'|] eqn:E; cbn; [|discriminate].
    intros [= _ <-]. cbn.
    apply findPlayer_Some in E1 as (q1 & Hq1 & Hnm1).
    apply findPlayer_Some in E2 as (q2 & Hq2 & Hnm2).
    rewrite (processMatch_others _ _ _ i E); [exact Hi| |]; cbn; intros ->; congruence.
Qed.

End RegistryFacts.

(** ** Invariants of a registry under any sequence of calls *)

Section RegistryInvariant.
Context {D : Type} `{Double D} `{CMath D}.

Lemma stats_consistent_stat1 res (p : Player D) :
  stats_consistent p -> stats_consistent (stat1 res p).
Proof.
  intros Hp. unfold stat1.
  destruct (res =? 1); [exact (stats_consistent_call_op p CallRecordWin Hp)|].
  destruct (res =? -1);
    [exact (stats_consistent_call_op p CallRecordLoss Hp)
    |exact (stats_consistent_call_op p CallRecordDraw Hp)].
Qed.

Lemma stats_consistent_stat2 res (p : Player D) :
  stats_consistent p -> stats_consistent (stat2 res p).
Proof.
  intros Hp. unfold stat2.
  destruct (res =? 1); [exact (stats_consistent_call_op p CallRecordLoss Hp)|].
  destruct (res =? -1);
    [exact (stats_consistent_call_op p CallRecordWin Hp)
    |exact (stats_consistent_call_op p CallRecordDraw Hp)].
Qed.

Lemma Forall_call (P : Player D -> Prop) r f (h : heap D) :
  (forall p, P p -> P (f p)) -> Forall P h -> Forall P (call r f h).
Proof.
  intros Hf Hh. unfold call. apply Forall_alter; [exact Hh|].
  intros p _. apply Hf.
Qed.

Lemma processMatch_consistent (m : Match D) (h h' : heap D) :
  processMatch m h = Some h' ->
  Forall stats_consistent h -> Forall stats_consistent h'.
Proof.
  intros Hp Hh.
  destruct (h !! player1 m) as [p1|] eqn:H1;
    [|unfold processMatch in Hp; rewrite H1 in Hp; discriminate].
  destruct (h !! player2 m) as [p2|] eqn:H2;
    [|unfold processMatch in Hp; rewrite H1, H2 in Hp; discriminate].
  rewrite (processMatch_eq m h p1 p2 H1 H2) in Hp. injection Hp as <-.
  repeat apply Forall_call; try exact Hh.
  - intros p. exact (stats_consistent_call_op p (CallUpdateRating _)).
  - intros p. exact (stats_consistent_call_op p (CallUpdateRating _)).
  - apply stats_consistent_stat2.
  - apply stats_consistent_stat1.
Qed.

Lemma registry_call_invariant (c : RegistryCall D) (sys : RankingSystem D) :
  unique_names sys -> Forall stats_consistent (players sys) ->
  exists sys',
    registry_call sys c = Some sys' /\
    unique_names sys' /\ Forall stats_consistent (players sys').
Proof.
  intros Hu Hc. destruct c as [nm r|nm1 nm2 res]; cbn.
  - eexists. split; [reflexivity|]. unfold addPlayer.
    destruct (findPlayer nm sys) eqn:E; cbn; [split; assumption|].
    apply findPlayer_None in E. split.
    + unfold unique_names, getAllPlayerNames in *. cbn.
      rewrite map_app. apply NoDup_app. split; [exact Hu|]. split.
      * intros x Hx. cbn. rewrite getName_Player_new.
        intros Hx'%list_elem_of_singleton. congruence.
      * apply NoDup_singleton.
    + apply Forall_app. split; [exact Hc|].
      apply Forall_singleton. apply stats_consistent_new.
  - destruct (recordMatch_total nm1 nm2 res sys) as [[out sys'] Hr].
    rewrite Hr. cbn. exists sys'. split; [reflexivity|]. split.
    + unfold unique_names. rewrite (recordMatch_names _ _ _ _ _ _ Hr). exact Hu.
    + revert Hr. unfold recordMatch.
      destruct (findPlayer nm1 sys) as [i1|]; [|intros [= _ <-]; exact Hc].
      destruct (findPlayer nm2 sys) as [i2|]; [|intros [= _ <-]; exact Hc].
      destruct (processMatch _ _) as [h'|] eqn:E; cbn; [|discriminate].
      intros [= _ <-]. cbn. exact (processMatch_consistent _ _ _ E Hc).
Qed.

Lemma registry_calls_invariant_from (cs : list (RegistryCall D)) :
  forall sys : RankingSystem D,
  unique_names sys -> Forall stats_consistent (players sys) ->
  exists sys',
    registry_calls cs sys = Some sys' /\
    unique_names sys' /\ Forall stats_consistent (players sys').
Proof.
  induction cs as [|c cs IH]; intros sys Hu Hc.
  - exists sys. auto.
  - destruct (registry_call_invariant c sys Hu Hc) as (sys1 & E1 & Hu1 & Hc1).
    destruct (IH sys1 Hu1 Hc1) as (sys2 & E2 & Hu2 & Hc2).
    exists sys2. cbn. rewrite E1. cbn. auto.
Qed.

(** X5. Whatever sequence of [addPlayer] and [recordMatch] calls is made
    on a new registry (any names, repeated or unknown, any initial
    ratings, any result codes, a player matched against itself), every
    call returns, no two players ever share a name, and every player
    satisfies [gamesPlayed == wins + losses + draws] on [int]. *)
Theorem registry_calls_invariant (cs : list (RegistryCall D)) :
  exists sys,
    registry_calls cs RankingSystem_new = Some sys /\
    unique_names sys /\ Forall stats_consistent (players sys).
Proof.
  apply registry_calls_invariant_from.
  - apply NoDup_nil_2.
  - apply Forall_nil_2.
Qed.

(** X6. A result code other than 1 and -1 is processed as a draw: the
    match gives both players the actual score 0.5 and calls [recordDraw]
    on both, exactly as result 0 does.  [processMatch] itself rejects no
    result code. *)
Theorem processMatch_other_code_is_draw (m : Match D) (h : heap D) :
  result m <> 1 -> result m <> -1 ->
  processMatch m h =
    processMatch (Match_new (player1 m) (player2 m) 0 (kFactor m)) h.
Proof.
  intros H1 H2. unfold processMatch, Match_new. cbn.
  destruct (Z.eqb_spec (result m) 1) as [|_]; [contradiction|].
  destruct (Z.eqb_spec (result m) (-1)) as [|_]; [contradiction|].
  reflexivity.
Qed.

End RegistryInvariant.

(** ** The history of one player *)

Section PlayerHistory.
Context {D : Type} `{Double D}.

Lemma call_ops_snoc ops op (p : Player D) :
  call_ops (ops ++ [op]) p = call_op (call_ops ops p) op.
Proof. unfold call_ops. rewrite fold_left_app. reflexivity. Qed.

Lemma last_update_snoc (ops : list (PlayerOp D)) op :
  last_update (ops ++ [op]) =
    match op with CallUpdateRating v => Some v | _ => last_update ops end.
Proof. unfold last_update. rewrite fold_left_app. reflexivity. Qed.

(** X7. After any history of calls on a player, the name is the one given
    to the constructor, and the rating is the argument of the last
    [updateRating] of the history, or the constructed rating if there
    was none: recording wins, losses and draws never changes a rating. *)
Theorem player_name_and_rating_after_calls (ops : list (PlayerOp D)) (p : Player D) :
  getName (call_ops ops p) = getName p /\
  getRating (call_ops ops p) = default (getRating p) (last_update ops).
Proof.
  induction ops as [|op ops IH] using rev_ind; [split; reflexivity|].
  rewrite call_ops_snoc, last_update_snoc. destruct IH as [IHn IHr].
  destruct op; cbn; auto.
Qed.

End PlayerHistory.

(** ** The ratings after a match *)

Section RatingAfter.
Context {D : Type} `{Double D} `{CMath D}.

Lemma getRating_updateRating (v : D) (p : Player D) :
  getRating (updateRating v p) = v.
Proof. reflexivity. Qed.

Lemma rating_after_distinct (m : Match D) (h : heap D) p1 p2 :
  player1 m <> player2 m ->
  h !! player1 m = Some p1 ->
  h !! player2 m = Some p2 ->
  rating_after m h (player1 m) =
    Some (elo_update (kFactor m) (getRating p1) (getRating p2) (actual1 (result m))) /\
  rating_after m h (player2 m) =
    Some (elo_update (kFactor m) (getRating p2) (getRating p1) (actual2 (result m))).
Proof.
  intros Hne H1 H2.
  destruct (processMatch_distinct m h p1 p2 Hne H1 H2) as (h' & Hrun & Hq1 & Hq2 & _).
  unfold rating_after. rewrite Hrun. cbn. rewrite Hq1, Hq2. split; reflexivity.
Qed.

End RatingAfter.

Section RealRatings.
Local Open Scope R_scope.

Lemma expected_score_increasing (a a' b : R) :
  a < a' -> calculateExpectedScore a b < calculateExpectedScore a' b.
Proof.
  intros Ha. rewrite !expected_score_R.
  pose proof (power_of_ten_pos ((b - a') / 400)) as Hp.
  assert (Hlt : Rpower 10 ((b - a') / 400) < Rpower 10 ((b - a) / 400))
    by (apply Rpower_lt; lra).
  unfold Rdiv. rewrite !Rmult_1_l.
  apply Rinv_lt_contravar; [|lra].
  apply Rmult_lt_0_compat; lra.
Qed.

(** X8. The expected score of a player lies strictly between 0 and 1,
    depends only on the difference of the two ratings, and is 10/11 for a
    player rated 400 points above the opponent and 1/11 for one rated 400
    points below. *)
Theorem expected_score_scale (a b c : R) :
  0 < calculateExpectedScore a b < 1 /\
  calculateExpectedScore (a + c) (b + c) = calculateExpectedScore a b /\
  calculateExpectedScore (a + 400) a = 10 / 11 /\
  calculateExpectedScore a (a + 400) = 1 / 11.
Proof.
  split; [apply expected_score_range|]. rewrite !expected_score_R. repeat split.
  - do 3 f_equal. lra.
  - replace ((a - (a + 400)) / 400) with (- (1)) by lra.
    rewrite Rpower_Ropp, Rpower_1 by lra. lra.
  - replace ((a + 400 - a) / 400) with 1 by lra.
    rewrite Rpower_1 by lra. lra.
Qed.

(** X9. The expected score of a player grows strictly with the player's
    own rating and falls strictly with the opponent's. *)
Theorem expected_score_monotone (a a' b b' : R) :
  a < a' -> b < b' ->
  calculateExpectedScore a b < calculateExpectedScore a' b /\
  calculateExpectedScore a b' < calculateExpectedScore a b.
Proof.
  intros Ha Hb. split.
  - apply expected_score_increasing, Ha.
  - apply expected_score_decreasing, Hb.
Qed.

(** X10. A match between two different players with a positive K-factor
    moves the same amount from one rating to the other, and the amount is
    bounded: the winner of a decisive match gains more than 0 and less
    than K; in a draw (any other result code) less than K/2 changes
    hands, towards the lower-rated player, and nothing between equal
    ratings. *)
Theorem processMatch_rating_exchange (m : Match R) (h : heap R) (p1 p2 : Player R) :
  player1 m <> player2 m ->
  h !! player1 m = Some p1 ->
  h !! player2 m = Some p2 ->
  0 < kFactor m ->
  exists gain,
    rating_after m h (player1 m) = Some (getRating p1 + gain) /\
    rating_after m h (player2 m) = Some (getRating p2 - gain) /\
    (result m = 1%Z -> 0 < gain < kFactor m) /\
    (result m = (-1)%Z -> - kFactor m < gain < 0) /\
    (result m <> 1%Z -> result m <> (-1)%Z ->
       - kFactor m / 2 < gain < kFactor m / 2 /\
       (getRating p1 < getRating p2 -> 0 < gain) /\
       (getRating p2 < getRating p1 -> gain < 0) /\
       (getRating p1 = getRating p2 -> gain = 0)).
Proof.
  intros Hne H1 H2 Hk.
  destruct (rating_after_distinct m h p1 p2 Hne H1 H2) as [Ha1 Ha2].
  set (r1 := getRating p1) in *. set (r2 := getRating p2) in *.
  set (k := kFactor m) in *.
  pose proof (expected_score_sum r1 r2) as Hsum.
  pose proof (expected_score_range r1 r2) as Hrange.
  pose proof (actual_scores_sum (result m)) as Hact.
  exists (k * (actual1 (result m) - calculateExpectedScore r1 r2)).
  split; [exact Ha1|]. split.
  - rewrite Ha2. f_equal. unfold elo_update. cbn [dadd dsub dmul R_Double].
    replace (actual2 (result m)) with (1 - actual1 (result m)) by lra.
    replace (calculateExpectedScore r2 r1) with (1 - calculateExpectedScore r1 r2) by lra.
    ring.
  - assert (Hdraw : result m <> 1%Z -> result m <> (-1)%Z ->
                     actual1 (result m) = 1 / 2).
    { intros Hr1 Hr2. unfold actual1.
      destruct (Z.eqb_spec (result m) 1) as [|_]; [contradiction|].
      destruct (Z.eqb_spec (result m) (-1)) as [|_]; [contradiction|]. reflexivity. }
    split; [intros Hr; rewrite Hr; change (actual1 1) with 1; nra|].
    split; [intros Hr; rewrite Hr; change (actual1 (-1)) with 0; nra|].
    intros Hr1 Hr2. rewrite (Hdraw Hr1 Hr2).
    split; [nra|]. split; [|split].
    + intros Hlt. pose proof (expected_score_decreasing r1 r1 r2 Hlt) as Hd.
      rewrite expected_score_equal in Hd. nra.
    + intros Hlt. pose proof (expected_score_increasing r2 r1 r2 Hlt) as Hd.
      rewrite expected_score_equal in Hd.
      pose proof (expected_score_sum r1 r2). nra.
    + intros Heq. rewrite <- Heq, expected_score_equal. lra.
Qed.

End RealRatings.

Section RealMatches.
Local Open Scope R_scope.

(** X11. The rating changes of a match are proportional to its K-factor:
    with the K-factor multiplied by [c], both players' changes are
    multiplied by [c] (doubled for 64 against 32); with a K-factor of 0
    no rating changes. *)
Theorem processMatch_kFactor_scaling
    (m : Match R) (h : heap R) (p1 p2 : Player R) (c : R) :
  player1 m <> player2 m ->
  h !! player1 m = Some p1 ->
  h !! player2 m = Some p2 ->
  let scaled := Match_new (player1 m) (player2 m) (result m) (c * kFactor m) in
  exists change1 change2,
    rating_after m h (player1 m) = Some (getRating p1 + change1) /\
    rating_after m h (player2 m) = Some (getRating p2 + change2) /\
    rating_after scaled h (player1 m) = Some (getRating p1 + c * change1) /\
    rating_after scaled h (player2 m) = Some (getRating p2 + c * change2).
Proof.
  intros Hne H1 H2 scaled.
  destruct (rating_after_distinct m h p1 p2 Hne H1 H2) as [Ha1 Ha2].
  destruct (rating_after_distinct scaled h p1 p2 Hne H1 H2) as [Hs1 Hs2].
  cbn [scaled Match_new player1 player2 result kFactor] in Hs1, Hs2.
  eexists _, _. split; [exact Ha1|]. split; [exact Ha2|].
  rewrite Hs1, Hs2. unfold elo_update. cbn [dadd dsub dmul R_Double].
  split; f_equal; ring.
Qed.

(** X12. Between two different players of equal rating, a decisive match
    moves exactly half the K-factor from the loser to the winner, and a
    draw changes neither rating. *)
Theorem processMatch_equal_ratings (m : Match R) (h : heap R) (p1 p2 : Player R) :
  player1 m <> player2 m ->
  h !! player1 m = Some p1 ->
  h !! player2 m = Some p2 ->
  getRating p1 = getRating p2 ->
  let gain :=
    if (result m =? 1)%Z then kFactor m / 2
    else if (result m =? -1)%Z then - kFactor m / 2 else 0 in
  rating_after m h (player1 m) = Some (getRating p1 + gain) /\
  rating_after m h (player2 m) = Some (getRating p2 - gain).
Proof.
  intros Hne H1 H2 Heq gain.
  destruct (rating_after_distinct m h p1 p2 Hne H1 H2) as [Ha1 Ha2].
  rewrite Ha1, Ha2. unfold elo_update, actual1, actual2, gain.
  rewrite Heq, expected_score_equal. cbn [dadd dsub dmul R_Double].
  destruct (result m =? 1)%Z; [cbn; split; f_equal; lra|].
  destruct (result m =? -1)%Z; cbn; split; f_equal; lra.
Qed.

(** X13. [processMatch] has no rating floor: when both ratings are at
    least 0, the player who loses a decisive match, in either seat, to an
    opponent rated no higher, with a rating below half the K-factor, has a
    negative rating after the match. *)
Theorem processMatch_rating_below_zero (m : Match R) (h : heap R) (w l : Player R) :
  (result m = 1 \/ result m = -1)%Z ->
  winner m <> loser m ->
  h !! winner m = Some w ->
  h !! loser m = Some l ->
  0 <= getRating w <= getRating l ->
  getRating l < kFactor m / 2 ->
  exists r, rating_after m h (loser m) = Some r /\ r < 0.
Proof.
  intros Hres Hne Hw Hl [Hpos Hle] Hlow.
  set (rw := getRating w) in *. set (rl := getRating l) in *.
  assert (Hhalf : 1 / 2 <= calculateExpectedScore rl rw).
  { destruct Hle as [Hlt|Heq].
    - pose proof (expected_score_decreasing rl rw rl Hlt) as Hd.
      rewrite expected_score_equal in Hd. lra.
    - rewrite Heq, expected_score_equal. lra. }
  pose proof (expected_score_range rl rw) as Hrange.
  unfold winner, loser in *.
  destruct Hres as [Hres|Hres]; rewrite Hres in *; cbn [Z.eqb Pos.eqb] in *.
  - destruct (rating_after_distinct m h w l Hne Hw Hl) as [_ Ha].
    eexists. split; [exact Ha|].
    unfold elo_update. rewrite Hres. change (actual2 1) with 0.
    fold rw rl. cbn [dadd dsub dmul R_Double]. nra.
  - destruct (rating_after_distinct m h l w (not_eq_sym Hne) Hl Hw) as [Ha _].
    eexists. split; [exact Ha|].
    unfold elo_update. rewrite Hres. change (actual1 (-1)) with 0.
    fold rw rl. cbn [dadd dsub dmul R_Double]. nra.
Qed.

End RealMatches.

Section RealRegistry.
Local Open Scope R_scope.

(** X14. Winning the same match again pays less: when player 1 beats
    the same opponent twice in a row (positive K-factor), the second gain
    is positive and strictly smaller than the first. *)
Theorem processMatch_repeated_win (m : Match R) (h : heap R) (p1 p2 : Player R) :
  player1 m <> player2 m ->
  h !! player1 m = Some p1 ->
  h !! player2 m = Some p2 ->
  result m = 1%Z ->
  0 < kFactor m ->
  exists h1 gain1 gain2,
    processMatch m h = Some h1 /\
    rating_after m h (player1 m) = Some (getRating p1 + gain1) /\
    rating_after m h1 (player1 m) = Some (getRating p1 + gain1 + gain2) /\
    0 < gain2 < gain1.
Proof.
  intros Hne H1 H2 Hres Hk.
  destruct (processMatch_distinct m h p1 p2 Hne H1 H2) as (h1 & Hrun & Hq1 & Hq2 & _).
  destruct (rating_after_distinct m h p1 p2 Hne H1 H2) as [Ha1 _].
  destruct (rating_after_distinct m h1 _ _ Hne Hq1 Hq2) as [Hb1 _].
  rewrite Hres in *. change (actual1 1) with 1 in *. change (actual2 1) with 0 in *.
  change (getRating (updateRating ?v _)) with v in Hb1.
  unfold elo_update in *. cbn [dadd dsub dmul R_Double] in *.
  set (r1 := getRating p1) in *. set (r2 := getRating p2) in *.
  set (k := kFactor m) in *.
  set (e := calculateExpectedScore r1 r2) in *.
  pose proof (expected_score_sum r1 r2) as Hsum. fold e in Hsum.
  pose proof (expected_score_range r1 r2) as He. fold e in He.
  assert (Hg1 : 0 < k * (1 - e)) by (apply Rmult_lt_0_compat; lra).
  set (e' := calculateExpectedScore (r1 + k * (1 - e))
                (r2 + k * (0 - calculateExpectedScore r2 r1))) in *.
  assert (He' : e < e' < 1).
  { split; [|apply expected_score_range].
    apply Rlt_trans with (calculateExpectedScore (r1 + k * (1 - e)) r2).
    - apply expected_score_increasing. lra.
    - apply expected_score_decreasing.
      replace (calculateExpectedScore r2 r1) with (1 - e) by lra. lra. }
  exists h1, (k * (1 - e)), (k * (1 - e')).
  split; [exact Hrun|]. split; [exact Ha1|]. split; [exact Hb1|]. nra.
Qed.

Lemma total_rating_call r f (h : heap R) p :
  h !! r = Some p ->
  total_rating (call r f h) = total_rating h - getRating p + getRating (f p).
Proof.
  unfold call, total_rating. revert r.
  induction h as [|q h IH]; intros r Hr; [discriminate|].
  destruct r as [|r]; cbn in *.
  - injection Hr as ->. lra.
  - rewrite (IH r Hr). lra.
Qed.

Lemma total_rating_app (h h' : heap R) :
  total_rating (h ++ h') = total_rating h + total_rating h'.
Proof.
  unfold total_rating. induction h as [|q h IH]; cbn; [lra|]. rewrite IH. lra.
Qed.

Lemma getRating_stat1 res (p : Player R) : getRating (stat1 res p) = getRating p.
Proof.
  unfold stat1. destruct (res =? 1)%Z; [reflexivity|].
  destruct (res =? -1)%Z; reflexivity.
Qed.

Lemma getRating_stat2 res (p : Player R) : getRating (stat2 res p) = getRating p.
Proof.
  unfold stat2. destruct (res =? 1)%Z; [reflexivity|].
  destruct (res =? -1)%Z; reflexivity.
Qed.

(** A match between two different objects keeps the sum of all ratings. *)
Lemma processMatch_total_rating (m : Match R) (h h' : heap R) :
  player1 m <> player2 m ->
  processMatch m h = Some h' ->
  total_rating h' = total_rating h.
Proof.
  intros Hne Hp.
  destruct (h !! player1 m) as [p1|] eqn:H1;
    [|unfold processMatch in Hp; rewrite H1 in Hp; discriminate].
  destruct (h !! player2 m) as [p2|] eqn:H2;
    [|unfold processMatch in Hp; rewrite H1, H2 in Hp; discriminate].
  rewrite (processMatch_eq m h p1 p2 H1 H2) in Hp. injection Hp as <-.
  rewrite (total_rating_call _ _ _ (stat2 (result m) p2)).
  2:{ unfold call. rewrite list_lookup_alter_ne by congruence.
      rewrite list_lookup_alter_eq.
      rewrite list_lookup_alter_ne by congruence. rewrite H2. reflexivity. }
  rewrite (total_rating_call _ _ _ (stat1 (result m) p1)).
  2:{ unfold call. rewrite list_lookup_alter_ne by congruence.
      rewrite list_lookup_alter_eq, H1. reflexivity. }
  rewrite (total_rating_call _ _ _ p2).
  2:{ unfold call. rewrite list_lookup_alter_ne by congruence. exact H2. }
  rewrite (total_rating_call _ _ _ p1 H1).
  rewrite getRating_stat1, getRating_stat2.
  rewrite !getRating_updateRating.
  assert (Hupd :
    elo_update (kFactor m) (getRating p1) (getRating p2) (actual1 (result m)) +
    elo_update (kFactor m) (getRating p2) (getRating p1) (actual2 (result m)) =
    getRating p1 + getRating p2).
  { unfold elo_update. cbn [dadd dsub dmul R_Double].
    pose proof (expected_score_sum (getRating p1) (getRating p2)) as Hsum.
    pose proof (actual_scores_sum (result m)) as Hact.
    set (e12 := calculateExpectedScore (getRating p1) (getRating p2)) in *.
    set (e21 := calculateExpectedScore (getRating p2) (getRating p1)) in *.
    replace (actual2 (result m)) with (1 - actual1 (result m)) by lra.
    replace e21 with (1 - e12) by lra. ring. }
  unfold elo_update in *. cbn [dadd dsub dmul R_Double] in *.
  rewrite <- !expected_score_R. lra.
Qed.

Lemma recordMatch_total_rating nm1 nm2 res (sys sys' : RankingSystem R) out :
  nm1 <> nm2 ->
  recordMatch nm1 nm2 res sys = Some (out, sys') ->
  total_rating (players sys') = total_rating (players sys).
Proof.
  intros Hne. unfold recordMatch.
  destruct (findPlayer nm1 sys) as [i|] eqn:E1; [|intros [= _ <-]; reflexivity].
  destruct (findPlayer nm2 sys) as [j|] eqn:E2; [|intros [= _ <-]; reflexivity].
  destruct (processMatch _ _) as [h'|] eqn:E; cbn; [|discriminate].
  intros [= _ <-]. cbn. apply (processMatch_total_rating _ _ _) in E; [exact E|].
  cbn. intros ->.
  apply findPlayer_Some in E1 as (q1 & Hq1 & Hn1).
  apply findPlayer_Some in E2 as (q2 & Hq2 & Hn2). congruence.
Qed.

(** X15. Recording a match between two different names keeps the sum of
    the ratings of all players of the registry, for every result code and
    also when a name is unknown: rating points are only moved between the
    two players. *)
Theorem recordMatch_conserves_total_rating nm1 nm2 res (sys : RankingSystem R) :
  nm1 <> nm2 ->
  exists out sys',
    recordMatch nm1 nm2 res sys = Some (out, sys') /\
    total_rating (players sys') = total_rating (players sys).
Proof.
  intros Hne. destruct (recordMatch_total nm1 nm2 res sys) as [[out sys'] Hr].
  exists out, sys'. split; [exact Hr|].
  exact (recordMatch_total_rating _ _ _ _ _ _ Hne Hr).
Qed.

End RealRegistry.

(** ** main.cpp: choosing an opponent *)

Section MainFacts.
Context {D : Type} `{Double D} `{CMath D}.

Lemma getOtherPlayers_elem (sys : RankingSystem D) nm x :
  x ∈ getOtherPlayers sys nm <-> x ∈ getAllPlayerNames sys /\ x <> nm.
Proof.
  unfold getOtherPlayers. rewrite list_elem_of_filter. tauto.
Qed.

(** X16. [getOtherPlayers] returns the registered names other than the
    given one, in the order of the registry and as often as they occur:
    nothing is left out but that name, and nothing is added.  When the
    name is not registered the list is that of all names. *)
Theorem getOtherPlayers_all_but_one (sys : RankingSystem D) nm :
  (forall x, x ∈ getOtherPlayers sys nm <-> x ∈ getAllPlayerNames sys /\ x <> nm) /\
  getOtherPlayers sys nm `sublist_of` getAllPlayerNames sys /\
  (length (getOtherPlayers sys nm) <= getPlayerCount sys)%nat /\
  (nm ∈ getAllPlayerNames sys <->
     (length (getOtherPlayers sys nm) < getPlayerCount sys)%nat).
Proof.
  split; [intros x; apply getOtherPlayers_elem|].
  unfold getOtherPlayers, getPlayerCount, getAllPlayerNames.
  split; [apply sublist_filter|].
  rewrite <- (length_map getName (players sys)) at 1 2.
  split; [apply length_filter|].
  set (names := map getName (players sys)). clearbody names.
  induction names as [|y names IH].
  - cbn. split; [intros Hin%elem_of_nil; contradiction|lia].
  - rewrite filter_cons. pose proof (length_filter (fun name => name <> nm) names).
    destruct (decide (y <> nm)) as [Hy|Hy]; cbn [length].
    + rewrite elem_of_cons. split.
      * intros [->|Hin]; [contradiction|]. apply IH in Hin. lia.
      * intros Hlt. right. apply IH. lia.
    + split; [lia|]. intros _. apply dec_stable in Hy. subst y. apply list_elem_of_here.
Qed.

Lemma findRandomOpponent_elem rand_value (opponents : list string) :
  opponents <> [] ->
  0 <= rand_value <= Int.INT_MAX ->
  exists opponent,
    findRandomOpponent rand_value opponents = Some opponent /\
    opponent ∈ opponents.
Proof.
  intros Hne Hrand. unfold findRandomOpponent.
  destruct opponents as [|o os]; [contradiction|].
  set (l := o :: os) in *.
  assert (Hlen : 0 < Z.of_nat (length l)) by (cbn; lia).
  pose proof (Z.mod_pos_bound rand_value _ Hlen) as Hidx.
  assert (Hle : rand_value mod Z.of_nat (length l) <= rand_value)
    by (apply Z.mod_le; lia).
  rewrite wrap_id
    by (unfold Int.in_range, Int.INT_MIN, Int.INT_MAX in *; lia).
  destruct (Z.ltb_spec (rand_value mod Z.of_nat (length l)) 0) as [|_]; [lia|].
  destruct (lookup_lt_is_Some_2 l (Z.to_nat (rand_value mod Z.of_nat (length l))))
    as [x Hx]; [lia|].
  exists x. split; [exact Hx|]. apply list_elem_of_lookup. eauto.
Qed.

(** X17. [findRandomOpponent] returns the empty string for an empty
    list; for any other list and any value of [rand()] it returns a
    member of the list, the one at position [rand() % size], without
    reading outside the vector. *)
Theorem findRandomOpponent_member rand_value (opponents : list string) :
  0 <= rand_value <= Int.INT_MAX ->
  findRandomOpponent rand_value [] = Some EmptyString /\
  (opponents <> [] ->
   exists opponent,
     findRandomOpponent rand_value opponents = Some opponent /\
     opponent ∈ opponents /\
     opponents !! Z.to_nat (rand_value mod Z.of_nat (length opponents)) =
       Some opponent).
Proof.
  intros Hrand. split; [reflexivity|]. intros Hne.
  destruct (findRandomOpponent_elem rand_value opponents Hne Hrand) as (x & Hx & Hin).
  exists x. split; [exact Hx|]. split; [exact Hin|].
  revert Hx. unfold findRandomOpponent.
  destruct opponents as [|o os]; [contradiction|].
  set (l := o :: os) in *.
  assert (Hlen : 0 < Z.of_nat (length l)) by (cbn; lia).
  pose proof (Z.mod_pos_bound rand_value _ Hlen) as Hidx.
  assert (Hle : rand_value mod Z.of_nat (length l) <= rand_value)
    by (apply Z.mod_le; lia).
  rewrite wrap_id
    by (unfold Int.in_range, Int.INT_MIN, Int.INT_MAX in *; lia).
  destruct (Z.ltb_spec (rand_value mod Z.of_nat (length l)) 0) as [|_]; [lia|].
  trivial.
Qed.

(** What a Find Match turn does to the registry. *)
Lemma menu_find_match_cases nm rand_value res (sys : RankingSystem D) :
  0 <= rand_value <= Int.INT_MAX ->
  exists out sys',
    menu_find_match nm rand_value res sys = Some (out, sys') /\
    (sys' = sys \/
     exists opponent text,
       opponent <> nm /\
       (opponent ∈ getAllPlayerNames sys) /\ (nm ∈ getAllPlayerNames sys) /\
       (res = 1 \/ res = 0 \/ res = -1) /\
       recordMatch nm opponent res sys = Some (text, sys')).
Proof.
  intros Hrand. unfold menu_find_match.
  destruct (findPlayer nm sys) as [i|] eqn:Ei; [|eauto].
  assert (Hnm : nm ∈ getAllPlayerNames sys).
  { destruct (decide (nm ∈ getAllPlayerNames sys)) as [|Hn]; [assumption|].
    apply findPlayer_None in Hn. congruence. }
  destruct (getOtherPlayers sys nm) as [|o os] eqn:Eo; [eauto|].
  destruct (findRandomOpponent_elem rand_value (o :: os) ltac:(discriminate) Hrand)
    as (opponent & Hopp & Hin).
  rewrite Hopp. cbn [mbind option_bind].
  rewrite <- Eo in Hin. apply getOtherPlayers_elem in Hin as [Hreg Hother].
  destruct (Z.eqb_spec res 1) as [R1|R1]; cbn [negb andb].
  - destruct (recordMatch_total nm opponent res sys) as [[text sys'] Hr].
    rewrite Hr. cbn. eexists _, sys'. split; [reflexivity|].
    right. exists opponent, text. auto 10.
  - destruct (Z.eqb_spec res 0) as [R0|R0]; cbn [negb andb].
    + destruct (recordMatch_total nm opponent res sys) as [[text sys'] Hr].
      rewrite Hr. cbn. eexists _, sys'. split; [reflexivity|].
      right. exists opponent, text. auto 10.
    + destruct (Z.eqb_spec res (-1)) as [R2|R2]; cbn [negb andb]; [|eauto].
      destruct (recordMatch_total nm opponent res sys) as [[text sys'] Hr].
      rewrite Hr. cbn. eexists _, sys'. split; [reflexivity|].
      right. exists opponent, text. auto 10.
Qed.

(** X18. The Find Match turn of the menu always completes, and it either
    leaves the registry as it was (unknown name, nobody else registered,
    or a result other than 1, 0 and -1) or records one match between the
    named player and a registered player of another name, with the result
    typed in: the menu never matches a player against themselves and never
    passes on an invalid result code. *)
Theorem menu_find_match_records_valid_match nm rand_value res (sys : RankingSystem D) :
  0 <= rand_value <= Int.INT_MAX ->
  exists out sys',
    menu_find_match nm rand_value res sys = Some (out, sys') /\
    getAllPlayerNames sys' = getAllPlayerNames sys /\
    (sys' = sys \/
     exists opponent text,
       opponent <> nm /\
       (opponent ∈ getAllPlayerNames sys) /\ (nm ∈ getAllPlayerNames sys) /\
       (res = 1 \/ res = 0 \/ res = -1) /\
       recordMatch nm opponent res sys = Some (text, sys')).
Proof.
  intros Hrand.
  destruct (menu_find_match_cases nm rand_value res sys Hrand)
    as (out & sys' & Hrun & Hcases).
  exists out, sys'. split; [exact Hrun|]. split; [|exact Hcases].
  destruct Hcases as [->|(opponent & text & _ & _ & _ & _ & Hr)]; [reflexivity|].
  exact (recordMatch_names _ _ _ _ _ _ Hr).
Qed.

End MainFacts.

(** ** main.cpp: a session at the menu *)

Section RealSession.
Local Open Scope R_scope.

Lemma getPlayerCount_names (sys sys' : RankingSystem R) :
  getAllPlayerNames sys' = getAllPlayerNames sys ->
  getPlayerCount sys' = getPlayerCount sys.
Proof.
  unfold getAllPlayerNames, getPlayerCount. intros Hn.
  apply (f_equal length) in Hn. rewrite !length_map in Hn. exact Hn.
Qed.

Lemma Player_new_default nm :
  Player_new nm default_rating = mkPlayer nm 1200 0 0 0 0 :> Player R.
Proof.
  unfold Player_new, default_rating. cbn [dltb dlit R_Double]. unfold Rltb.
  destruct (Rlt_dec 1200 0) as [Hlt|_]; [lra|reflexivity].
Qed.

Lemma menu_turn_total_rating (t : Turn) (sys : RankingSystem R) :
  rand_in_range t ->
  exists out sys',
    menu_turn t sys = Some (out, sys') /\
    total_rating (players sys') - 1200 * INR (getPlayerCount sys') =
    total_rating (players sys) - 1200 * INR (getPlayerCount sys).
Proof.
  intros Hrand. destruct t as [nm|nm rand_value res]; cbn [menu_turn].
  - unfold menu_add_player, addPlayer.
    destruct (findPlayer nm sys); [eexists _, _; split; reflexivity|].
    eexists _, _. split; [reflexivity|].
    unfold getPlayerCount. cbn [players].
    rewrite total_rating_app, length_app, plus_INR, Player_new_default.
    unfold total_rating. cbn. lra.
  - destruct (menu_find_match_cases nm rand_value res sys Hrand)
      as (out & sys' & Hrun & Hcases).
    rewrite Hrun. cbn. eexists _, sys'. split; [reflexivity|].
    destruct Hcases as [->|(opponent & text & Hne & _ & _ & _ & Hr)]; [reflexivity|].
    rewrite (recordMatch_total_rating _ _ _ _ _ _ (not_eq_sym Hne) Hr).
    rewrite (getPlayerCount_names _ _ (recordMatch_names _ _ _ _ _ _ Hr)).
    reflexivity.
Qed.

(** X19. In a session of Add Player and Find Match turns at the menu,
    every turn completes and the ratings of the registry add up to what
    they were before plus 1200 for each player added: matches only move
    points between two players.  In a session that starts from an empty
    registry the ratings always add up to 1200 times the number of
    players. *)
Theorem menu_turns_total_rating (ts : list Turn) (sys : RankingSystem R) :
  Forall rand_in_range ts ->
  exists out sys',
    menu_turns ts sys = Some (out, sys') /\
    total_rating (players sys') =
      total_rating (players sys) +
      1200 * (INR (getPlayerCount sys') - INR (getPlayerCount sys)) /\
    (players sys = [] ->
     total_rating (players sys') = 1200 * INR (getPlayerCount sys')).
Proof.
  intros Hts.
  cut (exists out sys',
         menu_turns ts sys = Some (out, sys') /\
         total_rating (players sys') - 1200 * INR (getPlayerCount sys') =
         total_rating (players sys) - 1200 * INR (getPlayerCount sys)).
  { intros (out & sys' & Hrun & Hinv). exists out, sys'.
    split; [exact Hrun|]. split; [lra|].
    intros Hnil. unfold getPlayerCount in Hinv at 2. rewrite Hnil in Hinv.
    cbn in Hinv. lra. }
  revert sys. induction Hts as [|t ts Ht _ IH]; intros sys.
  - exists EmptyString, sys. split; reflexivity.
  - destruct (menu_turn_total_rating t sys Ht) as (out1 & sys1 & Hrun1 & Hinv1).
    destruct (IH sys1) as (out2 & sys2 & Hrun2 & Hinv2).
    exists (out1 +:+ out2), sys2. cbn [menu_turns]. rewrite Hrun1. cbn.
    rewrite Hrun2. cbn. split; [reflexivity|]. lra.
Qed.

End RealSession.

(** ** Persistence: what a file gives back *)

Section LoadFacts.
Context {D : Type} `{Double D} `{DoubleText D}.

Lemma repeat_call_invariant (P : Player D -> Prop) n f p :
  (forall q, P q -> P (f q)) -> P p -> P (repeat_call n f p).
Proof.
  intros Hf Hp. unfold repeat_call.
  induction (Z.to_nat n) as [|k IH]; [exact Hp|].
  rewrite Nat.iter_succ. apply Hf, IH.
Qed.

Lemma loaded_ok_new nm (r : D) : loaded_ok (Player_new nm r).
Proof.
  split; [apply stats_consistent_new|].
  unfold Player_new. destruct (dltb r (dlit 0)) eqn:E; cbn; auto.
Qed.

Lemma loaded_ok_recordWin (p : Player D) : loaded_ok p -> loaded_ok (recordWin p).
Proof.
  intros [Hc Hr]. split; [exact (stats_consistent_call_op p CallRecordWin Hc)|exact Hr].
Qed.

Lemma loaded_ok_recordLoss (p : Player D) : loaded_ok p -> loaded_ok (recordLoss p).
Proof.
  intros [Hc Hr]. split; [exact (stats_consistent_call_op p CallRecordLoss Hc)|exact Hr].
Qed.

Lemma loaded_ok_recordDraw (p : Player D) : loaded_ok p -> loaded_ok (recordDraw p).
Proof.
  intros [Hc Hr]. split; [exact (stats_consistent_call_op p CallRecordDraw Hc)|exact Hr].
Qed.

Lemma load_line_ok line (p : Player D) : load_line line = Some p -> loaded_ok p.
Proof.
  unfold load_line.
  destruct (getline _ _ _) as [ss0 nm].
  destruct (extract_double ss0 None) as [ss1 [r|]]; [|destruct (extract_int _ _) as [? ?];
    destruct (extract_int _ _) as [? ?]; destruct (extract_int _ _) as [? ?];
    destruct (extract_int _ _) as [? ?]; discriminate].
  destruct (extract_int _ _) as [ss2 g].
  destruct (extract_int _ _) as [ss3 [w|]];
    [|destruct (extract_int _ _) as [? ?]; destruct (extract_int _ _) as [? ?];
      discriminate].
  destruct (extract_int _ _) as [ss4 [l|]];
    [|destruct (extract_int _ _) as [? ?]; discriminate].
  destruct (extract_int _ _) as [ss5 [d|]]; [|discriminate].
  cbn. intros [= <-].
  apply repeat_call_invariant; [apply loaded_ok_recordDraw|].
  apply repeat_call_invariant; [apply loaded_ok_recordLoss|].
  apply repeat_call_invariant; [apply loaded_ok_recordWin|].
  apply loaded_ok_new.
Qed.

(** X20. Loading a file that can be opened replaces the registry: the
    result does not depend on the players held before, it has one player
    for each line of the file, in that order, and every loaded player
    satisfies [gamesPlayed == wins + losses + draws] on [int] and has a
    rating that is not below 0, whatever the lines contain. *)
Theorem loadFromFile_replaces_registry
    filename (sys sys' : RankingSystem D) fs text out :
  contents fs !! filename = Some text ->
  loadFromFile filename sys fs = Some (out, sys') ->
  (forall sys0, loadFromFile filename sys0 fs = Some (out, sys')) /\
  getPlayerCount sys' = length (file_lines text) /\
  Forall (fun p => stats_consistent p /\
                   ((getRating p <? dlit 0)%dbl = false \/ getRating p = dlit 0))
         (players sys').
Proof.
  intros Hfile. unfold loadFromFile. rewrite Hfile.
  destruct (mapM load_line (file_lines text)) as [ps|] eqn:E; [|discriminate].
  cbn. intros [= <- <-]. split; [reflexivity|]. split.
  - unfold getPlayerCount. cbn. symmetry. exact (length_mapM _ _ _ E).
  - cbn. apply mapM_Some_1 in E. induction E as [|line p ls ps Hl _ IH]; constructor.
    + exact (load_line_ok line p Hl).
    + exact IH.
Qed.

(** X21. A line with a name without comma, a rating text that reads
    back, and four numbers is loaded as a player whose games count is the
    sum of the wins, losses and draws of the line: the games field of the
    file is read and then ignored.  The rating is the value of its text,
    or 0 if that is negative. *)
Theorem load_line_ignores_games_field nm t g w l d :
  contains_char "," nm = false ->
  rating_text_ok t = true ->
  0 <= g <= Int.INT_MAX ->
  0 <= w -> 0 <= l -> 0 <= d -> w + l + d <= Int.INT_MAX ->
  load_line (csv_line nm t g w l d) =
    Some (mkPlayer nm
            (if (fst (dconv t) <? dlit 0)%dbl then dlit 0 else fst (dconv t))
            (w + l + d) w l d).
Proof.
  intros Hcomma Htext Hg Hw Hl Hd Hmax.
  unfold Int.INT_MAX in *. unfold load_line, csv_line.
  rewrite getline_field by exact Hcomma.
  rewrite extract_double_field by exact Htext.
  rewrite ignore_comma, extract_int_field by (unfold Int.INT_MAX; lia).
  rewrite ignore_comma, extract_int_field by (unfold Int.INT_MAX; lia).
  rewrite ignore_comma, extract_int_field by (unfold Int.INT_MAX; lia).
  rewrite ignore_comma, extract_int_last by (unfold Int.INT_MAX; lia).
  cbn [mbind option_bind]. rewrite Player_new_eq.
  rewrite replay_counters by (unfold Int.INT_MAX; lia).
  reflexivity.
Qed.

(** X22. [saveToFile] touches only the file it names: every other file
    keeps its text, and a name that cannot be opened for writing leaves
    all files as they were.  A save replaces the text of the file: after
    two saves to the same name the files are those after the second save
    alone. *)
Theorem saveToFile_only_named_file filename (sys sys2 : RankingSystem D) fs :
  (forall other, other <> filename ->
     contents (snd (saveToFile filename sys fs)) !! other = contents fs !! other) /\
  (writable fs filename = false ->
     saveToFile filename sys fs = ("Error opening file for writing!" +:+ nl, fs)) /\
  saveToFile filename sys2 (snd (saveToFile filename sys fs)) =
    saveToFile filename sys2 fs.
Proof.
  unfold saveToFile, write_file. destruct (writable fs filename) eqn:Hw; cbn.
  - split; [intros other Hne; apply lookup_insert_ne; congruence|].
    split; [discriminate|]. rewrite Hw, insert_insert_eq. reflexivity.
  - split; [reflexivity|]. split; [reflexivity|]. rewrite Hw. reflexivity.
Qed.

Lemma split_at_absent delim s :
  contains_char delim s = false -> split_at delim s = (s, None).
Proof.
  induction s as [|c s IH]; [reflexivity|]. cbn.
  destruct (Ascii.eqb c delim); [discriminate|]. cbn. intros Hs.
  rewrite (IH Hs). reflexivity.
Qed.

Lemma load_line_without_comma line :
  contains_char "," line = false -> load_line line = None.
Proof.
  intros Hline. unfold load_line, getline.
  cbn [good istream_of eofbit failbit buffer negb andb].
  rewrite (split_at_absent _ _ Hline).
  destruct (is_empty line); reflexivity.
Qed.

(** X23. A file with a line that has no comma (a blank line, a line
    with the name only) cannot be loaded: for that line no extraction
    writes [rating], and the loop constructs the player from the
    variable that was declared without initializer. *)
Theorem loadFromFile_line_without_comma
    filename (sys : RankingSystem D) fs text line :
  contents fs !! filename = Some text ->
  (line ∈ file_lines text) ->
  contains_char "," line = false ->
  load_line line = None /\ loadFromFile filename sys fs = None.
Proof.
  intros Hfile Hin Hline.
  pose proof (load_line_without_comma line Hline) as Hnone.
  split; [exact Hnone|].
  unfold loadFromFile. rewrite Hfile.
  destruct (mapM load_line (file_lines text)) as [ps|] eqn:E; [|reflexivity].
  exfalso. apply mapM_Some_1 in E.
  apply list_elem_of_lookup in Hin as [i Hi].
  destruct (Forall2_lookup_l _ _ _ _ _ E Hi) as (p & _ & Hp). congruence.
Qed.

End LoadFacts.

(* ================================================================== *)
(** * Part V: the further properties at concrete inputs *)
(* ================================================================== *)

Section FurtherRealExamples.
Local Open Scope R_scope.

Lemma carol_is_new : "Carol" ∉ getAllPlayerNames club.
Proof.
  unfold club, getAllPlayerNames. cbn [players map getName alice bob name].
  rewrite !not_elem_of_cons. repeat split; try discriminate. apply not_elem_of_nil.
Qed.

Lemma alice_is_registered : "Alice" ∈ getAllPlayerNames club.
Proof. unfold club, getAllPlayerNames. cbn. apply list_elem_of_here. Qed.

Lemma addPlayer_fresh_name_witness :
  findPlayer "Carol" (snd (addPlayer "Carol" 1500 club)) = Some 2%nat /\
  findPlayer "Bob" (snd (addPlayer "Carol" 1500 club)) = findPlayer "Bob" club.
Proof.
  destruct (addPlayer_fresh_name "Carol" 1500 club carol_is_new)
    as (sys' & Hadd & _ & _ & Hfind & _ & Hothers & _).
  rewrite Hadd. split; [exact Hfind|]. apply Hothers. discriminate.
Defined.

Lemma addPlayer_existing_name_witness :
  addPlayer "Alice" 1500 club = ("Player 'Alice' already exists!" +:+ nl, club).
Proof. exact (addPlayer_existing_name "Alice" 1500 club alice_is_registered). Defined.

Lemma processMatch_other_code_is_draw_witness :
  processMatch (Match_new 0 1 7 32) [alice; bob] =
  processMatch (Match_new 0 1 0 32) [alice; bob].
Proof.
  apply (processMatch_other_code_is_draw (Match_new 0 1 7 32) [alice; bob]);
    cbn; discriminate.
Defined.

Lemma expected_score_monotone_witness :
  calculateExpectedScore 1200 1400 < calculateExpectedScore 1300 1400 /\
  calculateExpectedScore 1200 1500 < calculateExpectedScore 1200 1400.
Proof. apply (expected_score_monotone 1200 1300 1400 1500); lra. Defined.

Lemma processMatch_rating_exchange_witness :
  exists gain,
    rating_after (Match_new 0 1 1 32) [alice; bob] 0 = Some (1200 + gain) /\
    rating_after (Match_new 0 1 1 32) [alice; bob] 1 = Some (1200 - gain) /\
    0 < gain < 32.
Proof.
  destruct (processMatch_rating_exchange (Match_new 0 1 1 32) [alice; bob] alice bob
              ltac:(discriminate) eq_refl eq_refl ltac:(cbn; lra))
    as (gain & Ha1 & Ha2 & Hwin & _).
  exists gain. split; [exact Ha1|]. split; [exact Ha2|]. exact (Hwin eq_refl).
Defined.

Lemma processMatch_kFactor_scaling_witness :
  exists change1 change2,
    rating_after (Match_new 0 1 1 32) [alice; bob] 0 = Some (1200 + change1) /\
    rating_after (Match_new 0 1 1 32) [alice; bob] 1 = Some (1200 + change2) /\
    rating_after (Match_new 0 1 1 (2 * 32)) [alice; bob] 0 = Some (1200 + 2 * change1) /\
    rating_after (Match_new 0 1 1 (2 * 32)) [alice; bob] 1 = Some (1200 + 2 * change2).
Proof.
  exact (processMatch_kFactor_scaling (Match_new 0 1 1 32) [alice; bob] alice bob 2
           ltac:(discriminate) eq_refl eq_refl).
Defined.

Lemma processMatch_equal_ratings_witness :
  rating_after (Match_new 0 1 1 32) [alice; bob] 0 = Some (1200 + 32 / 2) /\
  rating_after (Match_new 0 1 1 32) [alice; bob] 1 = Some (1200 - 32 / 2).
Proof.
  exact (processMatch_equal_ratings (Match_new 0 1 1 32) [alice; bob] alice bob
           ltac:(discriminate) eq_refl eq_refl eq_refl).
Defined.

Lemma processMatch_rating_below_zero_witness :
  (exists r, rating_after (Match_new 0 1 (-1) 32) novices 0 = Some r /\ r < 0) /\
  (exists r, rating_after (Match_new 0 1 1 32) novices 1 = Some r /\ r < 0).
Proof.
  split.
  - apply (processMatch_rating_below_zero (Match_new 0 1 (-1) 32) novices
             (mkPlayer "Ben" 5 0 0 0 0) (mkPlayer "Ann" 5 0 0 0 0));
      try reflexivity; try discriminate; try (right; reflexivity); cbn; lra.
  - apply (processMatch_rating_below_zero (Match_new 0 1 1 32) novices
             (mkPlayer "Ann" 5 0 0 0 0) (mkPlayer "Ben" 5 0 0 0 0));
      try reflexivity; try discriminate; try (left; reflexivity); cbn; lra.
Defined.

Lemma processMatch_repeated_win_witness :
  exists h1 gain1 gain2,
    processMatch (Match_new 0 1 1 32) [alice; bob] = Some h1 /\
    rating_after (Match_new 0 1 1 32) [alice; bob] 0 = Some (1200 + gain1) /\
    rating_after (Match_new 0 1 1 32) h1 0 = Some (1200 + gain1 + gain2) /\
    0 < gain2 < gain1.
Proof.
  apply (processMatch_repeated_win (Match_new 0 1 1 32) [alice; bob] alice bob);
    try reflexivity; try discriminate; cbn; lra.
Defined.

Lemma recordMatch_conserves_total_rating_witness :
  exists out sys',
    recordMatch "Alice" "Bob" 1 club = Some (out, sys') /\
    total_rating (players sys') = total_rating (players club).
Proof.
  apply (recordMatch_conserves_total_rating "Alice" "Bob" 1 club). discriminate.
Defined.

Lemma menu_find_match_records_valid_match_witness :
  exists out sys',
    menu_find_match "Alice" 7 1 club = Some (out, sys') /\
    getAllPlayerNames sys' = getAllPlayerNames club.
Proof.
  destruct (menu_find_match_records_valid_match "Alice" 7 1 club
              ltac:(unfold Int.INT_MAX; lia)) as (out & sys' & Hrun & Hnames & _).
  exists out, sys'. split; [exact Hrun|exact Hnames].
Defined.

Lemma short_session_rand : Forall rand_in_range short_session.
Proof. repeat constructor; cbn; unfold Int.INT_MAX; lia. Qed.

Lemma menu_turns_total_rating_witness :
  exists out sys',
    menu_turns short_session RankingSystem_new = Some (out, sys') /\
    total_rating (players sys') = 1200 * INR (getPlayerCount sys').
Proof.
  destruct (menu_turns_total_rating short_session RankingSystem_new short_session_rand)
    as (out & sys' & Hrun & _ & Hnew).
  exists out, sys'. split; [exact Hrun|]. apply Hnew. reflexivity.
Defined.

End FurtherRealExamples.

Section FurtherBinary64Examples.

Lemma findRandomOpponent_member_witness :
  findRandomOpponent 7 ["Bob"; "Carol"; "Dave"] = Some "Carol".
Proof.
  destruct (findRandomOpponent_member 7 ["Bob"; "Carol"; "Dave"]
              ltac:(unfold Int.INT_MAX; lia)) as [_ Hmem].
  destruct (Hmem ltac:(discriminate)) as (opponent & Hrun & _ & Hat).
  rewrite Hrun. rewrite <- Hat. reflexivity.
Defined.

Lemma loadFromFile_replaces_registry_witness :
  exists out sys',
    (forall sys0 : RankingSystem float,
       loadFromFile "players.csv" sys0 saved_files = Some (out, sys')) /\
    getPlayerCount sys' = 2%nat.
Proof.
  destruct (loadFromFile "players.csv" odd_ratings saved_files) as [[out sys']|] eqn:E;
    [|vm_compute in E; discriminate].
  destruct (@loadFromFile_replaces_registry float float_Double float_DoubleText
              "players.csv" odd_ratings sys' saved_files
              ltac:(exact (file_text (players after_one_match))) out
              ltac:(vm_compute; reflexivity) E) as (Hany & Hcount & _).
  exists out, sys'. split; [exact Hany|]. rewrite Hcount. vm_compute. reflexivity.
Defined.

Lemma load_line_ignores_games_field_witness :
  load_line (csv_line "Alice" "1216" 99 1 0 0) =
    Some (mkPlayer "Alice" 1216%float 1 1 0 0).
Proof.
  rewrite (@load_line_ignores_games_field float float_Double float_DoubleText
             "Alice" "1216" 99 1 0 0
             ltac:(vm_compute; reflexivity) ltac:(vm_compute; reflexivity)
             ltac:(unfold Int.INT_MAX; lia) ltac:(lia) ltac:(lia) ltac:(lia)
             ltac:(unfold Int.INT_MAX; lia)).
  vm_compute. reflexivity.
Defined.

Lemma loadFromFile_line_without_comma_witness :
  loadFromFile "players.csv" after_one_match blank_line_files = None.
Proof.
  apply (@loadFromFile_line_without_comma float float_Double float_DoubleText
           "players.csv" after_one_match blank_line_files
           ("Alice,1216,1,1,0,0" +:+ nl +:+ nl +:+ "Bob,1184,1,0,1,0" +:+ nl)
           EmptyString).
  - vm_compute. reflexivity.
  - vm_compute. apply list_elem_of_further, list_elem_of_here.
  - reflexivity.
Defined.

End FurtherBinary64Examples.
